(** * mapreduce.c: a shallow embedding of the in-memory map / group-by-key /
    reduce engine, and the properties of its stages.

    Conventions of the model.

    - A [char] array (and a C string handed to the engine by a callback) is a
      [list byte].  For a string argument the list holds the characters of the
      string, and the end of the list stands for the terminating NUL; for a
      [char\[n\]] field the list holds the [n] bytes of the field.
    - [strcmp] reads both operands until it has decided; when it would read
      past the last byte of an array that holds no NUL, the C program reads
      outside the object, and the model answers [None].
    - [size_t] values taking part in the slice arithmetic are [Z] with the
      wrap-around modulo [2^64] written out.
    - The allocator is an oracle.  [realloc] is called by the emit functions
      only and [malloc] by [mr_exec] only: the [n]-th [realloc] of the
      process succeeds iff [realloc_ok n = true], and the [n]-th [malloc] of
      a run of [mr_exec] succeeds iff [malloc_ok n = true].
    - [qsort] is a parameter of the engine, specified by what the C standard
      promises: a sorted rearrangement of the array, as long as the comparison
      function is defined on its elements.
    - Worker threads interleave at the granularity of one emission: the
      emit functions hold a mutex for their whole body.  A schedule, the
      list of the threads picked one step after the other, stands for the
      scheduler; [pthread_create] is taken to succeed, its result being
      ignored by the program.
    - A callback is known to the engine by its emit calls only, each of
      which it may follow up according to the status returned. *)

From Stdlib Require Import Strings.Byte Strings.String.
From Stdlib Require Import ZArith List Lia Bool Permutation Sorted.
Import ListNotations.
Open Scope Z_scope.

(** ** C strings and [string.h] *)

Definition NUL : byte := x00.

Definition is_nul (b : byte) : bool := Byte.eqb b NUL.

(** The string held by an array: the bytes before the first NUL. *)
Fixpoint c_str (a : list byte) : list byte :=
  match a with
  | [] => []
  | b :: r => if is_nul b then [] else b :: c_str r
  end.

(** [strncpy(dst, src, n)]: the [n] bytes written to [dst].  Characters are
    copied up to the end of the source string or until [n] bytes are written,
    whichever comes first; the remainder of [dst], if any, is filled with NUL.
    No NUL is written when the source string has [n] characters or more. *)
Fixpoint strncpy (src : list byte) (n : nat) {struct n} : list byte :=
  match n with
  | O => []
  | S n' =>
      match src with
      | [] => repeat NUL n
      | b :: r => if is_nul b then repeat NUL n else b :: strncpy r n'
      end
  end.

Definition uchar (b : byte) : Z := Z.of_N (Byte.to_N b).

(** [strcmp(a, b)] on two arrays: the difference of the first pair of bytes
    (as [unsigned char]) that differ, [0] when both strings end together. *)
Fixpoint strcmp (a b : list byte) : option Z :=
  match a, b with
  | x :: a', y :: b' =>
      if Byte.eqb x y
      then if is_nul x then Some 0 else strcmp a' b'
      else Some (uchar x - uchar y)
  | _, _ => None
  end.

(** Byte-wise lexicographic order on strings, the order the specification
    speaks of. *)
Fixpoint bytes_compare (a b : list byte) : comparison :=
  match a, b with
  | [], [] => Eq
  | [], _ :: _ => Lt
  | _ :: _, [] => Gt
  | x :: a', y :: b' =>
      match N.compare (Byte.to_N x) (Byte.to_N y) with
      | Eq => bytes_compare a' b'
      | c => c
      end
  end.

Definition bytes_lt (a b : list byte) : Prop := bytes_compare a b = Lt.
Definition bytes_le (a b : list byte) : Prop := bytes_compare a b <> Gt.

Definition bytes_eq_dec : forall a b : list byte, {a = b} + {a <> b} :=
  list_eq_dec Byte.byte_eq_dec.

Definition bytes_eqb (a b : list byte) : bool :=
  if bytes_eq_dec a b then true else false.

Definition bytes (s : string) : list byte := list_byte_of_string s.

(** ** Data model *)

(** [kv_pair_t]: one slot of the intermediate or of the final buffer. *)
Record kv_pair_t := mk_kv {
  key : list byte;          (* char key[MAX_KEY_SIZE]     *)
  value : list byte         (* char value[MAX_VALUE_SIZE] *)
}.

(** [struct mr_out_kv] of interface.h, as mr_exec uses it: a key, an array of
    [count] values. *)
Record mr_out_kv := mk_out {
  out_key : list byte;
  out_value : list (list byte);
  out_count : Z
}.

(** [struct mr_output]; [kv_lst = None] is the null pointer. *)
Record mr_output := mk_output {
  kv_lst : option (list mr_out_kv);
  count : Z
}.

(** The string of a stored key. *)
Definition ckey (p : kv_pair_t) : list byte := c_str (key p).

(** [cmp_kv]: the qsort comparator, by key. *)
Definition cmp_kv (A B : kv_pair_t) : option Z := strcmp (key A) (key B).

(** [a] comes no later than [b] under [cmp_kv]. *)
Definition kv_le (a b : kv_pair_t) : Prop :=
  exists z, cmp_kv a b = Some z /\ z <= 0.

(** What the C standard promises of [qsort(base, n, sizeof( *base), cmp_kv)],
    for an array on whose elements the comparator is defined. *)
Definition qsort_spec (qsort : list kv_pair_t -> list kv_pair_t) : Prop :=
  forall l, Forall (fun p => In NUL (key p)) l ->
            Permutation l (qsort l) /\ StronglySorted kv_le (qsort l).

(** A concrete [qsort]: insertion sort with [cmp_kv]. *)
Definition cmp_leb (a b : kv_pair_t) : bool :=
  match cmp_kv a b with
  | Some z => z <=? 0
  | None => true
  end.

Fixpoint insert_kv (p : kv_pair_t) (l : list kv_pair_t) : list kv_pair_t :=
  match l with
  | [] => [p]
  | q :: r => if cmp_leb p q then p :: q :: r else q :: insert_kv p r
  end.

Fixpoint isort (l : list kv_pair_t) : list kv_pair_t :=
  match l with
  | [] => []
  | p :: r => insert_kv p (isort r)
  end.

(** ** Global state of mapreduce.c *)

(** The two buffers with their capacities.  A buffer is represented by its
    first [count] slots, the only ones the program reads; [inter_count] and
    [final_count] are the lengths of these lists.  [reallocs] counts the calls
    of [realloc] so far and indexes the oracle.  Two fields are ghost state:
    [emit_failures] counts the emit calls that returned [-1], and
    [reduce_calls] logs the groups handed to the reduce callback. *)
Record state := mk_state {
  inter_kvs : list kv_pair_t;
  inter_cap : Z;
  final_kvs : list kv_pair_t;
  final_cap : Z;
  reallocs : nat;
  emit_failures : nat;
  reduce_calls : list mr_out_kv
}.

Definition inter_count (st : state) : Z := Z.of_nat (length (inter_kvs st)).
Definition final_count (st : state) : Z := Z.of_nat (length (final_kvs st)).

Definition INITIAL_CAP : Z := 1024.

(** A callback, as far as the engine can observe it: the emissions it makes,
    each continued with the status the emit function returned to it. *)
Inductive cb : Type :=
| Ret : cb
| EmitI (k v : list byte) (next : Z -> cb)
| EmitF (k v : list byte) (next : Z -> cb).

(** Callbacks that emit the given pairs and ignore the returned status. *)
Fixpoint emit_all_i (kvs : list (list byte * list byte)) : cb :=
  match kvs with
  | [] => Ret
  | (k, v) :: r => EmitI k v (fun _ => emit_all_i r)
  end.

Fixpoint emit_all_f (kvs : list (list byte * list byte)) : cb :=
  match kvs with
  | [] => Ret
  | (k, v) :: r => EmitF k v (fun _ => emit_all_f r)
  end.

(** What [mr_exec] does: it returns a status, having written [output] and
    left the globals in [st]; or it runs into undefined behaviour. *)
Inductive outcome :=
| Returned (status : Z) (output : mr_output) (st : state)
| Undefined.

Definition status_of (o : outcome) : option Z :=
  match o with Returned s _ _ => Some s | Undefined => None end.
Definition output_of (o : outcome) : option mr_output :=
  match o with Returned _ out _ => Some out | Undefined => None end.
Definition state_of (o : outcome) : option state :=
  match o with Returned _ _ st => Some st | Undefined => None end.

(** Result of the group-building loop: the groups, or [return -1] after a
    failed [malloc], or a [strcmp] that left its array. *)
Inductive grouped :=
| Groups (groups : list mr_out_kv) (a : nat)
| NoMemory
| OutOfBounds.

(** ** Slices *)

Definition SIZE_MOD : Z := 2 ^ 64.
Definition wrap (z : Z) : Z := z mod SIZE_MOD.

(** The loop that cuts [0, N) into one [(start, end)] range per worker;
    [todo] is the number of workers still to be served, [t] the loop index. *)
Fixpoint slices_from (todo : nat) (t base rem offset : Z) : list (Z * Z) :=
  match todo with
  | O => []
  | S todo' =>
      let chunk_size := wrap (base + (if t <? rem then 1 else 0)) in
      let end_ := wrap (offset + chunk_size) in
      (offset, end_) :: slices_from todo' (t + 1) base rem end_
  end.

Definition slices (N workers : Z) : list (Z * Z) :=
  slices_from (Z.to_nat workers) 0 (N / workers) (N mod workers) 0.

(** The items a worker visits: [lst\[start\]], ..., [lst\[end - 1\]]. *)
Definition range_items {A : Type} (lst : list A) (se : Z * Z) : list A :=
  firstn (Z.to_nat (snd se - fst se)) (skipn (Z.to_nat (fst se)) lst).

(** Ranges that follow one another from [lo] to [hi] without gap or overlap. *)
Fixpoint chained (lo : Z) (P : list (Z * Z)) (hi : Z) : Prop :=
  match P with
  | [] => lo = hi
  | (s, e) :: r => s = lo /\ s <= e /\ chained e r hi
  end.

(** Start of the [i]-th range when the first [rem] ranges hold [base + 1]
    items and the others [base]. *)
Definition bound (base rem i : Z) : Z := i * base + Z.min i rem.

(** ** Vocabulary of the statements *)

Definition pairs_with_key (k : list byte) (l : list kv_pair_t)
  : list kv_pair_t :=
  filter (fun p => bytes_eqb (ckey p) k) l.

Definition distinct_keys (l : list kv_pair_t) : list (list byte) :=
  nodup bytes_eq_dec (map ckey l).

(** Slots, and groups or output records, compared by the strings of their
    keys. *)
Definition key_le (p q : kv_pair_t) : Prop := bytes_le (ckey p) (ckey q).
Definition out_lt (g h : mr_out_kv) : Prop :=
  bytes_lt (c_str (out_key g)) (c_str (out_key h)).
Definition out_le (g h : mr_out_kv) : Prop :=
  bytes_le (c_str (out_key g)) (c_str (out_key h)).

(** Two group sequences that agree as (key, multiset of values). *)
Definition same_groups (G1 G2 : list mr_out_kv) : Prop :=
  Forall2 (fun g1 g2 => out_key g1 = out_key g2 /\
                        Permutation (out_value g1) (out_value g2) /\
                        out_count g1 = out_count g2) G1 G2.

(** Both buffers hold no more slots than their arrays have room for. *)
Definition within_capacity (st : state) : Prop :=
  0 <= inter_cap st /\ inter_count st <= inter_cap st /\
  0 <= final_cap st /\ final_count st <= final_cap st.

(** ** Sample data for the examples *)

Definition st0 : state :=
  {| inter_kvs := []; inter_cap := 0; final_kvs := []; final_cap := 0;
     reallocs := 0; emit_failures := 0; reduce_calls := [] |}.

Definition out0 : mr_output := {| kv_lst := None; count := 7 |}.

Definition always (_ : nat) : bool := true.
Definition never (_ : nat) : bool := false.
Definition all_but (i : nat) (n : nat) : bool := negb (Nat.eqb n i).

Definition in_rec : Type := list byte * list byte.

(** A key cut to seven characters, so that it fits a field of eight. *)
Definition clip7 (k : list byte) : list byte := firstn 7 (c_str k).

(** The map function that emits its record and the reduce function that
    emits the group's key with the concatenation of its values, both with
    the key cut to seven characters. *)
Definition map_identity (r : in_rec) : cb := emit_all_i [(clip7 (fst r), snd r)].
Definition reduce_concat (g : mr_out_kv) : cb :=
  emit_all_f [(clip7 (out_key g), concat (map c_str (out_value g)))].
(** A map function that emits nothing. *)
Definition map_nothing (r : in_rec) : cb := Ret.

Definition input_ab : list in_rec :=
  [(bytes "a", bytes "1"); (bytes "b", bytes "2"); (bytes "a", bytes "3")].

(** A slot of a buffer whose fields have eight bytes. *)
Definition slot8 (k v : string) : kv_pair_t :=
  {| key := strncpy (bytes k) 8; value := strncpy (bytes v) 8 |}.

(** Globals with three intermediate and three final pairs. *)
Definition st_ab : state :=
  {| inter_kvs := [slot8 "a" "1"; slot8 "b" "2"; slot8 "a" "3"];
     inter_cap := 1024;
     final_kvs := [slot8 "b" "x"; slot8 "a" "y"; slot8 "b" "z"];
     final_cap := 1024;
     reallocs := 2; emit_failures := 0; reduce_calls := [] |}.

(** Two groups, as the group stage builds them from [st_ab]. *)
Definition groups_ab : list mr_out_kv :=
  [ {| out_key := strncpy (bytes "a") 8;
       out_value := [strncpy (bytes "1") 8; strncpy (bytes "3") 8];
       out_count := 2 |};
    {| out_key := strncpy (bytes "b") 8;
       out_value := [strncpy (bytes "2") 8];
       out_count := 1 |} ].

(** Globals whose two arrays are full: 1024 slots in arrays of 1024. *)
Definition st_full : state :=
  {| inter_kvs := repeat (slot8 "a" "1") 1024;
     inter_cap := 1024;
     final_kvs := repeat (slot8 "b" "x") 1024;
     final_cap := 1024;
     reallocs := 2; emit_failures := 0; reduce_calls := [] |}.

(** The map function that emits its record as it is, and two records with
    one key of twelve characters. *)
Definition map_raw (r : in_rec) : cb := emit_all_i [r].

Definition input_long : list in_rec :=
  [(bytes "averylongkey", bytes "1"); (bytes "averylongkey", bytes "2")].

Section Engine.

(** interface.h is not part of the sources at hand: its two array sizes and
    the type of an input record are parameters. *)
Variable MAX_KEY_SIZE : nat.
Variable MAX_VALUE_SIZE : nat.
Variable mr_in_kv : Type.

Variable realloc_ok : nat -> bool.
Variable malloc_ok : nat -> bool.
Variable qsort : list kv_pair_t -> list kv_pair_t.

(** *** Emission *)

(** The slot written by the two [strncpy] of an emit function. *)
Definition slot_of (k v : list byte) : kv_pair_t :=
  {| key := strncpy k MAX_KEY_SIZE; value := strncpy v MAX_VALUE_SIZE |}.

Definition mr_emit_i (k v : list byte) (st : state) : Z * state :=
  if inter_cap st <=? inter_count st then
    let newcap := if inter_cap st =? 0 then INITIAL_CAP else inter_cap st * 2 in
    if realloc_ok (reallocs st) then
      (0, {| inter_kvs := inter_kvs st ++ [slot_of k v];
             inter_cap := newcap;
             final_kvs := final_kvs st; final_cap := final_cap st;
             reallocs := S (reallocs st);
             emit_failures := emit_failures st;
             reduce_calls := reduce_calls st |})
    else
      (-1, {| inter_kvs := inter_kvs st; inter_cap := inter_cap st;
              final_kvs := final_kvs st; final_cap := final_cap st;
              reallocs := S (reallocs st);
              emit_failures := S (emit_failures st);
              reduce_calls := reduce_calls st |})
  else
    (0, {| inter_kvs := inter_kvs st ++ [slot_of k v];
           inter_cap := inter_cap st;
           final_kvs := final_kvs st; final_cap := final_cap st;
           reallocs := reallocs st;
           emit_failures := emit_failures st;
           reduce_calls := reduce_calls st |}).

Definition mr_emit_f (k v : list byte) (st : state) : Z * state :=
  if final_cap st <=? final_count st then
    let newcap := if final_cap st =? 0 then INITIAL_CAP else final_cap st * 2 in
    if realloc_ok (reallocs st) then
      (0, {| inter_kvs := inter_kvs st; inter_cap := inter_cap st;
             final_kvs := final_kvs st ++ [slot_of k v];
             final_cap := newcap;
             reallocs := S (reallocs st);
             emit_failures := emit_failures st;
             reduce_calls := reduce_calls st |})
    else
      (-1, {| inter_kvs := inter_kvs st; inter_cap := inter_cap st;
              final_kvs := final_kvs st; final_cap := final_cap st;
              reallocs := S (reallocs st);
              emit_failures := S (emit_failures st);
              reduce_calls := reduce_calls st |})
  else
    (0, {| inter_kvs := inter_kvs st; inter_cap := inter_cap st;
           final_kvs := final_kvs st ++ [slot_of k v];
           final_cap := final_cap st;
           reallocs := reallocs st;
           emit_failures := emit_failures st;
           reduce_calls := reduce_calls st |}).

(** *** Running callbacks *)

(** One invocation of a callback, run to its return. *)
Fixpoint run_cb (c : cb) (st : state) : state :=
  match c with
  | Ret => st
  | EmitI k v next => let (r, st') := mr_emit_i k v st in run_cb (next r) st'
  | EmitF k v next => let (r, st') := mr_emit_f k v st in run_cb (next r) st'
  end.

Section Executor.

Context {A : Type}.
Variable fn : A -> cb.
(** Ghost bookkeeping done when [fn] is entered. *)
Variable enter : A -> state -> state.

(** The body of [map_worker] and of [reduce_worker], and of the sequential
    loops of [mr_exec]: [fn] on each item in index order. *)
Fixpoint run_items (items : list A) (st : state) : state :=
  match items with
  | [] => st
  | x :: r => run_items r (run_cb (fn x) (enter x st))
  end.

(** A worker thread in flight: what is left of the invocation it is in, and
    the items of its slice it has not started yet. *)
Record thread := mk_thread { running : cb; todo : list A }.

(** One atomic step of a thread: its next emission, or entering [fn] on its
    next item.  A thread that has finished stays as it is. *)
Definition thread_step (t : thread) (st : state) : thread * state :=
  match running t with
  | EmitI k v next =>
      let (r, st') := mr_emit_i k v st in
      ({| running := next r; todo := todo t |}, st')
  | EmitF k v next =>
      let (r, st') := mr_emit_f k v st in
      ({| running := next r; todo := todo t |}, st')
  | Ret =>
      match todo t with
      | [] => (t, st)
      | x :: r => ({| running := fn x; todo := r |}, enter x st)
      end
  end.

Fixpoint pool_step (i : nat) (pool : list thread) (st : state) {struct pool}
  : list thread * state :=
  match pool with
  | [] => ([], st)
  | t :: rest =>
      match i with
      | O => let (t', st') := thread_step t st in (t' :: rest, st')
      | S i' => let (rest', st') := pool_step i' rest st in (t :: rest', st')
      end
  end.

(** The threads run as the scheduler picks them. *)
Fixpoint run_schedule (sched : list nat) (pool : list thread) (st : state)
  : list thread * state :=
  match sched with
  | [] => (pool, st)
  | i :: s => let (pool', st') := pool_step i pool st in run_schedule s pool' st'
  end.

(** A thread that has returned from its last item. *)
Definition idle (t : thread) : Prop := running t = Ret /\ todo t = [].

Definition is_idle (t : thread) : bool :=
  match running t, todo t with
  | Ret, [] => true
  | _, _ => false
  end.

(** A schedule that runs the threads in turn, in the order of their slices:
    whenever it picks thread [i], the threads before it have returned from
    their last item. *)
Fixpoint in_turn (sched : list nat) (pool : list thread) (st : state) : bool :=
  match sched with
  | [] => true
  | i :: s =>
      forallb is_idle (firstn i pool) &&
      (let (pool', st') := pool_step i pool st in in_turn s pool' st')
  end.

Definition finish_thread (t : thread) (st : state) : state :=
  run_items (todo t) (run_cb (running t) st).

(** [pthread_join] on every thread: each one runs to the end of its slice. *)
Fixpoint join_all (pool : list thread) (st : state) : state :=
  match pool with
  | [] => st
  | t :: rest => join_all rest (finish_thread t st)
  end.

(** One thread per task, interleaved by [sched], then joined. *)
Definition fan_out (sched : list nat) (tasks : list (list A)) (st : state)
  : state :=
  let (pool, st') := run_schedule sched (map (mk_thread Ret) tasks) st in
  join_all pool st'.

(** A stage of [mr_exec]: sequential for at most one worker, else one
    thread per slice. *)
Definition stage (lst : list A) (workers : Z) (sched : list nat) (st : state)
  : state :=
  if workers <=? 1 then run_items lst st
  else fan_out sched
         (map (range_items lst) (slices (Z.of_nat (length lst)) workers)) st.

End Executor.

Definition no_note {A : Type} (_ : A) (st : state) : state := st.

Definition note_reduce (g : mr_out_kv) (st : state) : state :=
  {| inter_kvs := inter_kvs st; inter_cap := inter_cap st;
     final_kvs := final_kvs st; final_cap := final_cap st;
     reallocs := reallocs st; emit_failures := emit_failures st;
     reduce_calls := reduce_calls st ++ [g] |}.

Definition map_worker (map_fn : mr_in_kv -> cb) := run_items map_fn no_note.
Definition reduce_worker (reduce_fn : mr_out_kv -> cb) :=
  run_items reduce_fn note_reduce.

(** *** Group-by-key stage *)

(** [j - (i + 1)] at the exit of
    [while (j < inter_count && strcmp(inter_kvs\[j\].key, inter_kvs\[i\].key) == 0) j++],
    [l] being the slots from [i + 1] on. *)
Fixpoint same_key_run (k : list byte) (l : list kv_pair_t) : option nat :=
  match l with
  | [] => Some O
  | q :: r =>
      match strcmp (key q) k with
      | None => None
      | Some z => if z =? 0 then option_map S (same_key_run k r) else Some O
      end
  end.

(** The walk over the sorted buffer, [l] being the slots from [i] on and [a]
    the number of [malloc] calls made so far.  Every round consumes at least
    one slot, so that [fuel = length l] rounds are enough. *)
Fixpoint group_loop (fuel : nat) (l : list kv_pair_t) (a : nat) : grouped :=
  match l, fuel with
  | [], _ => Groups [] a
  | _, O => Groups [] a
  | p :: r, S fuel' =>
      match same_key_run (key p) r with
      | None => OutOfBounds
      | Some n =>
          let vals := S n in
          if malloc_ok a then
            let g := {| out_key := strncpy (key p) MAX_KEY_SIZE;
                        out_value :=
                          map (fun q => strncpy (value q) MAX_VALUE_SIZE)
                              (firstn vals l);
                        out_count := Z.of_nat vals |} in
            match group_loop fuel' (skipn vals l) (S a) with
            | Groups gs a' => Groups (g :: gs) a'
            | other => other
            end
          else NoMemory
      end
  end.

Definition sort_inter (st : state) : state :=
  {| inter_kvs := qsort (inter_kvs st); inter_cap := inter_cap st;
     final_kvs := final_kvs st; final_cap := final_cap st;
     reallocs := reallocs st; emit_failures := emit_failures st;
     reduce_calls := reduce_calls st |}.

Definition sort_final (st : state) : state :=
  {| inter_kvs := inter_kvs st; inter_cap := inter_cap st;
     final_kvs := qsort (final_kvs st); final_cap := final_cap st;
     reallocs := reallocs st; emit_failures := emit_failures st;
     reduce_calls := reduce_calls st |}.

(** "group by-key stage": sort, allocate the group array, walk. *)
Definition group_stage (st : state) : grouped :=
  let st := sort_inter st in
  if malloc_ok 0 then
    group_loop (length (inter_kvs st)) (inter_kvs st) 1
  else NoMemory.

(** *** Result packer *)

(** The copy loop over the sorted final buffer; [None] when a record's value
    storage is the null pointer and [strncpy] writes through it. *)
Fixpoint pack_loop (l : list kv_pair_t) (a : nat) : option (list mr_out_kv) :=
  match l with
  | [] => Some []
  | p :: r =>
      if malloc_ok a then
        match pack_loop r (S a) with
        | Some recs =>
            Some ({| out_key := strncpy (key p) MAX_KEY_SIZE;
                     out_value := [strncpy (value p) MAX_VALUE_SIZE];
                     out_count := 1 |} :: recs)
        | None => None
        end
      else None
  end.

(** "final sort and pack into output", [a] being the number of [malloc]
    calls the run has made so far. *)
Definition pack (a : nat) (output : mr_output) (st : state) : outcome :=
  let st := sort_final st in
  if malloc_ok a then
    match pack_loop (final_kvs st) (S a) with
    | Some recs =>
        Returned 0 {| kv_lst := Some recs; count := final_count st |} st
    | None => Undefined
    end
  else
    Returned (-1) {| kv_lst := None; count := count output |} st.

(** *** Orchestrator *)

(** "reset our global buffers" *)
Definition reset (st : state) : state :=
  {| inter_kvs := []; inter_cap := inter_cap st;
     final_kvs := []; final_cap := final_cap st;
     reallocs := reallocs st; emit_failures := emit_failures st;
     reduce_calls := reduce_calls st |}.

Definition map_stage (input : list mr_in_kv) (map_fn : mr_in_kv -> cb)
    (mapper_count : Z) (sched : list nat) (st : state) : state :=
  stage map_fn no_note input mapper_count sched st.

Definition reduce_stage (groups : list mr_out_kv) (reduce_fn : mr_out_kv -> cb)
    (reducer_count : Z) (sched : list nat) (st : state) : state :=
  stage reduce_fn note_reduce groups reducer_count sched st.

(** [mr_exec].  [output] is the caller's struct as it is before the call;
    [sched_m] and [sched_r] are the scheduler's choices during the two
    stages; [st] holds the globals as the previous run left them. *)
Definition mr_exec (input : list mr_in_kv) (map_fn : mr_in_kv -> cb)
    (mapper_count : Z) (reduce_fn : mr_out_kv -> cb) (reducer_count : Z)
    (output : mr_output) (sched_m sched_r : list nat) (st : state) : outcome :=
  let st := reset st in
  let st := map_stage input map_fn mapper_count sched_m st in
  if inter_count st =? 0 then
    Returned 0 {| kv_lst := None; count := 0 |} st
  else
    match group_stage st with
    | Groups groups a =>
        let st := sort_inter st in
        let st := reduce_stage groups reduce_fn reducer_count sched_r st in
        pack a output st
    | NoMemory => Returned (-1) output (sort_inter st)
    | OutOfBounds => Undefined
    end.

(** *** Well-formed buffers and callbacks *)

(** A slot whose key field has the size of the array and holds a NUL. *)
Definition kv_wf (p : kv_pair_t) : Prop :=
  length (key p) = MAX_KEY_SIZE /\ In NUL (key p).

(** A callback all of whose keys fit their field with the terminator,
    whatever the emit functions answer. *)
Inductive cb_keys_fit : cb -> Prop :=
| fit_Ret : cb_keys_fit Ret
| fit_EmitI k v next :
    (length (c_str k) < MAX_KEY_SIZE)%nat ->
    (forall r, cb_keys_fit (next r)) -> cb_keys_fit (EmitI k v next)
| fit_EmitF k v next :
    (length (c_str k) < MAX_KEY_SIZE)%nat ->
    (forall r, cb_keys_fit (next r)) -> cb_keys_fit (EmitF k v next).

(** The slots a callback adds to the intermediate buffer when every emit
    call succeeds. *)
Fixpoint inter_emits (c : cb) : list kv_pair_t :=
  match c with
  | Ret => []
  | EmitI k v next => slot_of k v :: inter_emits (next 0)
  | EmitF k v next => inter_emits (next 0)
  end.

(** The slots a thread has still to add to the intermediate buffer. *)
Definition pending_emits {A : Type} (fn : A -> cb) (t : thread) : list kv_pair_t :=
  inter_emits (running t) ++ flat_map (fun x => inter_emits (fn x)) (todo t).

(** The group of key [k] over the sorted buffer [s]. *)
Definition group_of (s : list kv_pair_t) (k : list byte) : mr_out_kv :=
  {| out_key := strncpy k MAX_KEY_SIZE;
     out_value := map (fun q => strncpy (value q) MAX_VALUE_SIZE)
                      (pairs_with_key k s);
     out_count := Z.of_nat (length (pairs_with_key k s)) |}.

(** The output record of a final-buffer slot. *)
Definition record_of (p : kv_pair_t) : mr_out_kv :=
  {| out_key := strncpy (key p) MAX_KEY_SIZE;
     out_value := [strncpy (value p) MAX_VALUE_SIZE];
     out_count := 1 |}.

(** * Properties *)

(** ** Lists *)

Lemma in_firstn {A : Type} (n : nat) (l : list A) (x : A) :
  In x (firstn n l) -> In x l.
Proof.
  intros H. rewrite <- (firstn_skipn n l). apply in_or_app. now left.
Qed.

Lemma in_skipn {A : Type} (n : nat) (l : list A) (x : A) :
  In x (skipn n l) -> In x l.
Proof.
  intros H. rewrite <- (firstn_skipn n l). apply in_or_app. now right.
Qed.

(** ** Strings *)

Lemma is_nul_true (b : byte) : is_nul b = true <-> b = NUL.
Proof.
  unfold is_nul; split.
  - apply Byte.byte_dec_bl.
  - apply Byte.byte_dec_lb.
Qed.

Lemma is_nul_false (b : byte) : is_nul b = false <-> b <> NUL.
Proof.
  rewrite <- is_nul_true. destruct (is_nul b); split; congruence.
Qed.

Lemma to_N_inj (x y : byte) : Byte.to_N x = Byte.to_N y -> x = y.
Proof.
  intros H. assert (E : Some x = Some y).
  { rewrite <- (Byte.of_to_N x), <- (Byte.of_to_N y). now rewrite H. }
  now inversion E.
Qed.

Lemma uchar_pos (b : byte) : b <> NUL -> 0 < uchar b.
Proof.
  intros H. unfold uchar.
  assert (Byte.to_N b <> 0%N).
  { intros E. apply H. apply to_N_inj. exact E. }
  lia.
Qed.

Lemma strncpy_length (n : nat) : forall s, length (strncpy s n) = n.
Proof.
  induction n as [|n IH]; intros s; [reflexivity|].
  cbn [strncpy]. destruct s as [|b r]; [now rewrite repeat_length|].
  destruct (is_nul b); [now rewrite repeat_length|].
  cbn [length]. now rewrite IH.
Qed.

Lemma c_str_no_nul (a : list byte) : ~ In NUL (c_str a).
Proof.
  induction a as [|b r IH]; simpl; [easy|].
  destruct (is_nul b) eqn:E; simpl; [easy|].
  apply is_nul_false in E. intros [H|H]; [congruence | now apply IH].
Qed.

Lemma c_str_id (a : list byte) : ~ In NUL a -> c_str a = a.
Proof.
  induction a as [|b r IH]; simpl; intros H; [reflexivity|].
  destruct (is_nul b) eqn:E.
  - apply is_nul_true in E. exfalso. apply H. now left.
  - f_equal. apply IH. intros HI. apply H. now right.
Qed.

Lemma c_str_idem (a : list byte) : c_str (c_str a) = c_str a.
Proof. apply c_str_id, c_str_no_nul. Qed.

Lemma c_str_length (a : list byte) : (length (c_str a) <= length a)%nat.
Proof.
  induction a as [|b r IH]; simpl; [lia|].
  destruct (is_nul b); simpl; lia.
Qed.

Lemma c_str_terminated (a : list byte) :
  In NUL a -> (length (c_str a) < length a)%nat.
Proof.
  induction a as [|b r IH]; simpl; [easy|].
  intros H. destruct (is_nul b) eqn:E; simpl; [lia|].
  apply is_nul_false in E. destruct H as [H|H]; [congruence|].
  specialize (IH H). lia.
Qed.

Lemma c_str_repeat_nul (n : nat) : c_str (repeat NUL n) = [].
Proof. destruct n; reflexivity. Qed.

(** The string left in the destination is the source string cut to [n]
    characters. *)
Lemma c_str_strncpy (n : nat) : forall s, c_str (strncpy s n) = firstn n (c_str s).
Proof.
  induction n as [|n IH]; intros s; [reflexivity|].
  destruct s as [|b r]; [apply (c_str_repeat_nul (S n))|].
  cbn [strncpy c_str]. destruct (is_nul b) eqn:E.
  - apply (c_str_repeat_nul (S n)).
  - cbn [c_str firstn]. rewrite E. now rewrite IH.
Qed.

(** A source of [n] characters or more fills the destination and leaves no
    room for a NUL. *)
Lemma strncpy_long (n : nat) : forall s,
  (n <= length (c_str s))%nat -> strncpy s n = firstn n (c_str s).
Proof.
  induction n as [|n IH]; intros s H; [reflexivity|].
  destruct s as [|b r]; [simpl in H; lia|].
  cbn [strncpy c_str] in *. destruct (is_nul b); [simpl in H; lia|].
  cbn [firstn]. f_equal. apply IH. simpl in H. lia.
Qed.

(** A shorter source is copied whole and padded with NUL. *)
Lemma strncpy_short (n : nat) : forall s,
  (length (c_str s) < n)%nat ->
  strncpy s n = c_str s ++ repeat NUL (n - length (c_str s)).
Proof.
  induction n as [|n IH]; intros s H; [lia|].
  destruct s as [|b r]; [reflexivity|].
  cbn [strncpy c_str] in *. destruct (is_nul b); [reflexivity|].
  cbn [length app] in *. rewrite IH by lia. reflexivity.
Qed.

Lemma strncpy_terminated (n : nat) (s : list byte) :
  (length (c_str s) < n)%nat -> In NUL (strncpy s n).
Proof.
  intros H. rewrite strncpy_short by exact H.
  apply in_or_app. right.
  destruct (n - length (c_str s))%nat eqn:E; [lia|]. now left.
Qed.

Lemma strncpy_unterminated (n : nat) (s : list byte) :
  (n <= length (c_str s))%nat -> ~ In NUL (strncpy s n).
Proof.
  intros H. rewrite strncpy_long by exact H.
  intros HI. apply (c_str_no_nul s). eapply in_firstn; eauto.
Qed.

(** Copying depends on the source string only. *)
Lemma strncpy_c_str (n : nat) : forall s, strncpy (c_str s) n = strncpy s n.
Proof.
  induction n as [|n IH]; intros s; [reflexivity|].
  destruct s as [|b r]; [reflexivity|].
  cbn [c_str]. destruct (is_nul b) eqn:E.
  - cbn [strncpy]. now rewrite E.
  - cbn [strncpy]. rewrite E. now rewrite IH.
Qed.

(** ** The order of [strcmp] *)

Lemma bytes_compare_refl (a : list byte) : bytes_compare a a = Eq.
Proof.
  induction a as [|x a IH]; simpl; [reflexivity|].
  now rewrite N.compare_refl.
Qed.

Lemma bytes_compare_eq (a : list byte) : forall b,
  bytes_compare a b = Eq -> a = b.
Proof.
  induction a as [|x a IH]; intros [|y b]; simpl; try congruence.
  destruct (N.compare_spec (Byte.to_N x) (Byte.to_N y)) as [E|E|E];
    try discriminate.
  intros H. apply to_N_inj in E. subst. f_equal. now apply IH.
Qed.

Lemma bytes_compare_antisym (a : list byte) : forall b,
  bytes_compare b a = CompOpp (bytes_compare a b).
Proof.
  induction a as [|x a IH]; intros [|y b]; simpl; try reflexivity.
  rewrite (N.compare_antisym (Byte.to_N x) (Byte.to_N y)).
  destruct (Byte.to_N x ?= Byte.to_N y)%N; simpl; auto.
Qed.

Lemma bytes_lt_trans (a : list byte) : forall b c,
  bytes_lt a b -> bytes_lt b c -> bytes_lt a c.
Proof.
  unfold bytes_lt.
  induction a as [|x a IH]; intros [|y b] [|z c]; simpl; try congruence.
  destruct (N.compare_spec (Byte.to_N x) (Byte.to_N y)) as [E1|E1|E1];
    destruct (N.compare_spec (Byte.to_N y) (Byte.to_N z)) as [E2|E2|E2];
    try discriminate; intros H1 H2.
  - rewrite E1, E2, N.compare_refl. eapply IH; eauto.
  - rewrite E1. now apply N.compare_lt_iff in E2 as ->.
  - rewrite <- E2. now apply N.compare_lt_iff in E1 as ->.
  - assert (E : (Byte.to_N x < Byte.to_N z)%N) by lia.
    now apply N.compare_lt_iff in E as ->.
Qed.

Lemma bytes_lt_irrefl (a : list byte) : ~ bytes_lt a a.
Proof. unfold bytes_lt. now rewrite bytes_compare_refl. Qed.

Lemma bytes_le_lt_or_eq (a b : list byte) :
  bytes_le a b <-> bytes_lt a b \/ a = b.
Proof.
  unfold bytes_le, bytes_lt. split.
  - destruct (bytes_compare a b) eqn:E; intros H.
    + right. now apply bytes_compare_eq.
    + now left.
    + congruence.
  - intros [H|H]; [congruence|]. subst. now rewrite bytes_compare_refl.
Qed.

Lemma bytes_le_trans (a b c : list byte) :
  bytes_le a b -> bytes_le b c -> bytes_le a c.
Proof.
  rewrite !bytes_le_lt_or_eq. intros [H1|H1] [H2|H2]; subst; auto.
  left. eapply bytes_lt_trans; eauto.
Qed.

Lemma bytes_le_total (a b : list byte) : bytes_le a b \/ bytes_le b a.
Proof.
  unfold bytes_le. rewrite (bytes_compare_antisym a b).
  destruct (bytes_compare a b); simpl; [left|left|right]; congruence.
Qed.

Lemma bytes_lt_not_le (a b : list byte) : bytes_lt a b -> ~ bytes_le b a.
Proof.
  unfold bytes_lt, bytes_le. rewrite (bytes_compare_antisym a b).
  intros ->. simpl. intros H. now apply H.
Qed.

(** On terminated arrays [strcmp] returns, and its sign is the byte-wise
    lexicographic comparison of the two strings. *)
Lemma strcmp_terminated (a : list byte) : forall b,
  In NUL a -> In NUL b ->
  exists z, strcmp a b = Some z /\
            (z ?= 0) = bytes_compare (c_str a) (c_str b).
Proof.
  induction a as [|x a IH]; intros [|y b] Ha Hb; try (simpl in *; contradiction).
  cbn [strcmp c_str].
  destruct (Byte.eqb x y) eqn:Exy.
  - apply Byte.byte_dec_bl in Exy. subst y.
    destruct (is_nul x) eqn:Ex.
    + exists 0. split; reflexivity.
    + apply is_nul_false in Ex.
      destruct Ha as [Ha|Ha]; [congruence|].
      destruct Hb as [Hb|Hb]; [congruence|].
      destruct (IH b Ha Hb) as (z & Hz & Hs).
      exists z. split; [exact Hz|].
      cbn [bytes_compare]. now rewrite N.compare_refl.
  - apply Byte.eqb_false in Exy.
    eexists; split; [reflexivity|].
    destruct (is_nul x) eqn:Ex; destruct (is_nul y) eqn:Ey.
    + apply is_nul_true in Ex, Ey. congruence.
    + apply is_nul_true in Ex. apply is_nul_false in Ey. subst x.
      cbn [bytes_compare]. pose proof (uchar_pos y Ey).
      apply Z.compare_lt_iff. change (uchar NUL) with 0. lia.
    + apply is_nul_true in Ey. apply is_nul_false in Ex. subst y.
      cbn [bytes_compare]. pose proof (uchar_pos x Ex).
      apply Z.compare_gt_iff. change (uchar NUL) with 0. lia.
    + cbn [bytes_compare]. unfold uchar.
      destruct (N.compare_spec (Byte.to_N x) (Byte.to_N y)) as [E|E|E].
      * apply to_N_inj in E. congruence.
      * apply Z.compare_lt_iff. lia.
      * apply Z.compare_gt_iff. lia.
Qed.

(** A comparison that runs off an unterminated array is not defined. *)
Lemma strcmp_unterminated (a : list byte) : ~ In NUL a -> strcmp a a = None.
Proof.
  induction a as [|x a IH]; intros H; [reflexivity|].
  cbn [strcmp]. rewrite (Byte.byte_dec_lb (eq_refl x)).
  destruct (is_nul x) eqn:E.
  - apply is_nul_true in E. exfalso. apply H. now left.
  - apply IH. intros HI. apply H. now right.
Qed.

(** ** Emission *)

(** A key of [MAX_KEY_SIZE] characters or more fills the key field: the slot
    holds its first [MAX_KEY_SIZE] characters and no NUL, and [strcmp] on such
    a key runs off the field.  The same holds of a value and
    [MAX_VALUE_SIZE]. *)
Lemma slot_of_long_key (k v : list byte) :
  (MAX_KEY_SIZE <= length (c_str k))%nat ->
  key (slot_of k v) = firstn MAX_KEY_SIZE (c_str k) /\
  ~ In NUL (key (slot_of k v)) /\
  cmp_kv (slot_of k v) (slot_of k v) = None.
Proof.
  intros H. unfold cmp_kv. cbn [slot_of key].
  split; [now apply strncpy_long|].
  split; [now apply strncpy_unterminated|].
  apply strcmp_unterminated. now apply strncpy_unterminated.
Qed.

Lemma slot_of_long_value (k v : list byte) :
  (MAX_VALUE_SIZE <= length (c_str v))%nat ->
  value (slot_of k v) = firstn MAX_VALUE_SIZE (c_str v) /\
  ~ In NUL (value (slot_of k v)).
Proof.
  intros H. cbn [slot_of value].
  split; [now apply strncpy_long | now apply strncpy_unterminated].
Qed.

(** A shorter key is stored whole, NUL-padded to the size of the field. *)
Lemma slot_of_wf (k v : list byte) :
  (length (c_str k) < MAX_KEY_SIZE)%nat ->
  kv_wf (slot_of k v) /\ ckey (slot_of k v) = c_str k.
Proof.
  intros H. unfold kv_wf, ckey. cbn [slot_of key].
  split; [split|].
  - apply strncpy_length.
  - now apply strncpy_terminated.
  - rewrite c_str_strncpy. apply firstn_all2. lia.
Qed.

(** The strings of the pairs stored in a buffer. *)
Lemma stored_strings_app (l : list kv_pair_t) (k v : list byte) :
  map (fun p => (c_str (key p), c_str (value p)))
      (l ++ [{| key := strncpy k MAX_KEY_SIZE;
                value := strncpy v MAX_VALUE_SIZE |}])
  = map (fun p => (c_str (key p), c_str (value p))) l
    ++ [(firstn MAX_KEY_SIZE (c_str k), firstn MAX_VALUE_SIZE (c_str v))].
Proof.
  rewrite map_app. cbn [map key value]. now rewrite !c_str_strncpy.
Qed.

(** C5. An emit call whose buffer is full and whose growth by [realloc]
    fails returns -1 and leaves count, capacity and every stored entry of
    both buffers as they were.  Every other emit call returns 0 and has
    appended exactly one slot after the entries already stored, all of
    which it keeps: the slot holds the key and the value of the call as
    [strncpy] writes them into the two fields, that is the first
    [MAX_KEY_SIZE] characters of the key and the first [MAX_VALUE_SIZE]
    characters of the value (the whole string when it is shorter).  The
    capacity is doubled when the buffer was full (it becomes [INITIAL_CAP]
    when it was 0) and is unchanged otherwise.  This holds of [mr_emit_i] and
    of [mr_emit_f], neither of which touches the other's buffer. *)
Theorem emit_appends_or_fails (k v : list byte) (st : state) :
  ((inter_cap st <= inter_count st /\ realloc_ok (reallocs st) = false ->
    fst (mr_emit_i k v st) = -1 /\
    inter_kvs (snd (mr_emit_i k v st)) = inter_kvs st /\
    inter_count (snd (mr_emit_i k v st)) = inter_count st /\
    inter_cap (snd (mr_emit_i k v st)) = inter_cap st /\
    final_kvs (snd (mr_emit_i k v st)) = final_kvs st /\
    final_cap (snd (mr_emit_i k v st)) = final_cap st) /\
   (~ (inter_cap st <= inter_count st /\ realloc_ok (reallocs st) = false) ->
    fst (mr_emit_i k v st) = 0 /\
    inter_kvs (snd (mr_emit_i k v st))
    = inter_kvs st ++ [{| key := strncpy k MAX_KEY_SIZE;
                          value := strncpy v MAX_VALUE_SIZE |}] /\
    map (fun p => (c_str (key p), c_str (value p)))
        (inter_kvs (snd (mr_emit_i k v st)))
    = map (fun p => (c_str (key p), c_str (value p))) (inter_kvs st)
      ++ [(firstn MAX_KEY_SIZE (c_str k), firstn MAX_VALUE_SIZE (c_str v))] /\
    inter_count (snd (mr_emit_i k v st)) = inter_count st + 1 /\
    inter_cap (snd (mr_emit_i k v st))
    = (if inter_cap st <=? inter_count st
       then if inter_cap st =? 0 then INITIAL_CAP else inter_cap st * 2
       else inter_cap st) /\
    final_kvs (snd (mr_emit_i k v st)) = final_kvs st /\
    final_cap (snd (mr_emit_i k v st)) = final_cap st)) /\
  ((final_cap st <= final_count st /\ realloc_ok (reallocs st) = false ->
    fst (mr_emit_f k v st) = -1 /\
    final_kvs (snd (mr_emit_f k v st)) = final_kvs st /\
    final_count (snd (mr_emit_f k v st)) = final_count st /\
    final_cap (snd (mr_emit_f k v st)) = final_cap st /\
    inter_kvs (snd (mr_emit_f k v st)) = inter_kvs st /\
    inter_cap (snd (mr_emit_f k v st)) = inter_cap st) /\
   (~ (final_cap st <= final_count st /\ realloc_ok (reallocs st) = false) ->
    fst (mr_emit_f k v st) = 0 /\
    final_kvs (snd (mr_emit_f k v st))
    = final_kvs st ++ [{| key := strncpy k MAX_KEY_SIZE;
                          value := strncpy v MAX_VALUE_SIZE |}] /\
    map (fun p => (c_str (key p), c_str (value p)))
        (final_kvs (snd (mr_emit_f k v st)))
    = map (fun p => (c_str (key p), c_str (value p))) (final_kvs st)
      ++ [(firstn MAX_KEY_SIZE (c_str k), firstn MAX_VALUE_SIZE (c_str v))] /\
    final_count (snd (mr_emit_f k v st)) = final_count st + 1 /\
    final_cap (snd (mr_emit_f k v st))
    = (if final_cap st <=? final_count st
       then if final_cap st =? 0 then INITIAL_CAP else final_cap st * 2
       else final_cap st) /\
    inter_kvs (snd (mr_emit_f k v st)) = inter_kvs st /\
    inter_cap (snd (mr_emit_f k v st)) = inter_cap st)).
Proof.
  split; split.
  - intros [Hfull Hfail]. unfold mr_emit_i.
    apply Z.leb_le in Hfull. rewrite Hfull, Hfail. cbn.
    repeat split; reflexivity.
  - intros Hno. unfold mr_emit_i, inter_count in *.
    destruct (inter_cap st <=? _) eqn:Hfull;
      [destruct (realloc_ok (reallocs st)) eqn:Hok|];
      cbn [fst snd inter_kvs inter_cap final_kvs final_cap]; unfold slot_of.
    + rewrite stored_strings_app, length_app. cbn [length].
      repeat split; try reflexivity. lia.
    + exfalso. apply Hno. apply Z.leb_le in Hfull. now split.
    + rewrite stored_strings_app, length_app. cbn [length].
      repeat split; try reflexivity. lia.
  - intros [Hfull Hfail]. unfold mr_emit_f.
    apply Z.leb_le in Hfull. rewrite Hfull, Hfail. cbn.
    repeat split; reflexivity.
  - intros Hno. unfold mr_emit_f, final_count in *.
    destruct (final_cap st <=? _) eqn:Hfull;
      [destruct (realloc_ok (reallocs st)) eqn:Hok|];
      cbn [fst snd inter_kvs inter_cap final_kvs final_cap]; unfold slot_of.
    + rewrite stored_strings_app, length_app. cbn [length].
      repeat split; try reflexivity. lia.
    + exfalso. apply Hno. apply Z.leb_le in Hfull. now split.
    + rewrite stored_strings_app, length_app. cbn [length].
      repeat split; try reflexivity. lia.
Qed.

(** The slot an emit call writes lies within the capacity of its array. *)
Lemma emit_within_capacity (k v : list byte) (st : state) :
  0 <= inter_cap st -> inter_count st <= inter_cap st ->
  0 <= final_cap st -> final_count st <= final_cap st ->
  (inter_count (snd (mr_emit_i k v st)) <= inter_cap (snd (mr_emit_i k v st)) /\
   final_count (snd (mr_emit_i k v st)) <= final_cap (snd (mr_emit_i k v st))) /\
  (inter_count (snd (mr_emit_f k v st)) <= inter_cap (snd (mr_emit_f k v st)) /\
   final_count (snd (mr_emit_f k v st)) <= final_cap (snd (mr_emit_f k v st))).
Proof.
  intros H1 H2 H3 H4. unfold mr_emit_i, mr_emit_f, inter_count, final_count in *.
  split.
  - destruct (Z.leb_spec (inter_cap st) (Z.of_nat (length (inter_kvs st))));
      [destruct (realloc_ok (reallocs st))|]; cbn;
      rewrite ?length_app; cbn; unfold INITIAL_CAP;
      destruct (Z.eqb_spec (inter_cap st) 0); lia.
  - destruct (Z.leb_spec (final_cap st) (Z.of_nat (length (final_kvs st))));
      [destruct (realloc_ok (reallocs st))|]; cbn;
      rewrite ?length_app; cbn; unfold INITIAL_CAP;
      destruct (Z.eqb_spec (final_cap st) 0); lia.
Qed.

(** ** Slices *)

Lemma firstn_plus {A : Type} (a b : nat) : forall l : list A,
  firstn (a + b) l = firstn a l ++ firstn b (skipn a l).
Proof.
  induction a as [|a IH]; intros l; [reflexivity|].
  destruct l as [|x l]; cbn [Nat.add firstn skipn app].
  - now rewrite firstn_nil.
  - now rewrite IH.
Qed.

Lemma bound_step (base rem t : Z) :
  0 <= rem -> 0 <= t ->
  bound base rem (t + 1)
  = bound base rem t + (base + (if t <? rem then 1 else 0)).
Proof.
  intros Hr Ht. unfold bound. destruct (Z.ltb_spec t rem); lia.
Qed.

Lemma bound_mono (base rem a b : Z) :
  0 <= base -> a <= b -> bound base rem a <= bound base rem b.
Proof.
  intros Hb Hab. unfold bound.
  assert (a * base <= b * base) by (apply Z.mul_le_mono_nonneg_r; lia).
  lia.
Qed.

Lemma bound_0 (base rem : Z) : 0 <= rem -> bound base rem 0 = 0.
Proof. intros H. unfold bound. lia. Qed.

(** The bounds of the slices of [N] items for [W] workers end at [N]. *)
Lemma bound_last (N W : Z) :
  0 <= N -> 0 < W -> bound (N / W) (N mod W) W = N.
Proof.
  intros HN HW. unfold bound.
  pose proof (Z.mod_pos_bound N W HW).
  pose proof (Z.div_mod N W ltac:(lia)). lia.
Qed.

(** No addition of the loop wraps around, and the [k]-th range it produces
    runs from one bound to the next. *)
Lemma slices_from_nth (base rem : Z) (todo : nat) : forall t k,
  0 <= base -> 0 <= rem -> 0 <= t ->
  bound base rem (t + Z.of_nat todo) < SIZE_MOD ->
  (k < todo)%nat ->
  nth k (slices_from todo t base rem (bound base rem t)) (0, 0)
  = (bound base rem (t + Z.of_nat k), bound base rem (t + Z.of_nat k + 1)).
Proof.
  induction todo as [|todo IH]; intros t k Hb Hr Ht Hmax Hk; [lia|].
  assert (H0 : 0 <= bound base rem t).
  { rewrite <- (bound_0 base rem Hr). apply bound_mono; lia. }
  assert (H1 : bound base rem (t + 1) < SIZE_MOD).
  { eapply Z.le_lt_trans; [|exact Hmax]. apply bound_mono; lia. }
  pose proof (bound_step base rem t Hr Ht) as Hs.
  assert (Hc : 0 <= base + (if t <? rem then 1 else 0))
    by (destruct (t <? rem); lia).
  cbn [slices_from]. unfold wrap.
  rewrite (Z.mod_small (base + _)) by lia.
  rewrite (Z.mod_small (bound base rem t + _)) by lia.
  rewrite <- Hs.
  destruct k as [|k]; cbn [nth].
  - now rewrite Z.add_0_r.
  - rewrite IH; try lia.
    + f_equal; f_equal; lia.
    + replace (t + 1 + Z.of_nat todo) with (t + Z.of_nat (S todo)) by lia.
      exact Hmax.
Qed.

Lemma slices_from_length (todo : nat) : forall t base rem offset,
  length (slices_from todo t base rem offset) = todo.
Proof.
  induction todo as [|todo IH]; intros; cbn [slices_from length];
    [reflexivity | now rewrite IH].
Qed.

Lemma slices_from_chained (base rem : Z) (todo : nat) : forall t,
  0 <= base -> 0 <= rem -> 0 <= t ->
  bound base rem (t + Z.of_nat todo) < SIZE_MOD ->
  chained (bound base rem t)
          (slices_from todo t base rem (bound base rem t))
          (bound base rem (t + Z.of_nat todo)).
Proof.
  induction todo as [|todo IH]; intros t Hb Hr Ht Hmax.
  - cbn. f_equal. lia.
  - assert (H0 : 0 <= bound base rem t).
    { rewrite <- (bound_0 base rem Hr). apply bound_mono; lia. }
    assert (H1 : bound base rem (t + 1) < SIZE_MOD).
    { eapply Z.le_lt_trans; [|exact Hmax]. apply bound_mono; lia. }
    pose proof (bound_step base rem t Hr Ht) as Hs.
    assert (Hc : 0 <= base + (if t <? rem then 1 else 0))
      by (destruct (t <? rem); lia).
    cbn [slices_from chained]. unfold wrap.
    rewrite (Z.mod_small (base + _)) by lia.
    rewrite (Z.mod_small (bound base rem t + _)) by lia.
    rewrite <- Hs. split; [reflexivity|]. split; [lia|].
    replace (t + Z.of_nat (S todo)) with (t + 1 + Z.of_nat todo) by lia.
    apply IH; try lia.
    replace (t + 1 + Z.of_nat todo) with (t + Z.of_nat (S todo)) by lia.
    exact Hmax.
Qed.

Lemma chained_le (P : list (Z * Z)) : forall lo hi, chained lo P hi -> lo <= hi.
Proof.
  induction P as [|[s e] r IH]; intros lo hi; cbn [chained].
  - lia.
  - intros (-> & Hse & Hr). apply IH in Hr. lia.
Qed.

(** Chained ranges cut a list into consecutive pieces. *)
Lemma chained_concat {A : Type} (lst : list A) (P : list (Z * Z)) :
  forall lo hi, 0 <= lo -> chained lo P hi ->
  concat (map (range_items lst) P)
  = firstn (Z.to_nat (hi - lo)) (skipn (Z.to_nat lo) lst).
Proof.
  induction P as [|[s e] r IH]; intros lo hi Hlo; cbn [chained map concat].
  - intros ->. now rewrite Z.sub_diag.
  - intros (-> & Hse & Hr). pose proof (chained_le _ _ _ Hr) as Hle.
    rewrite (IH e hi) by (lia || assumption).
    unfold range_items. cbn [fst snd].
    replace (Z.to_nat (hi - lo))
      with (Z.to_nat (e - lo) + Z.to_nat (hi - e))%nat by lia.
    rewrite firstn_plus, skipn_skipn.
    replace (Z.to_nat (e - lo) + Z.to_nat lo)%nat with (Z.to_nat e) by lia.
    reflexivity.
Qed.

Lemma ceil_div (N W : Z) :
  0 <= N -> 0 < W -> 0 < N mod W -> (N + W - 1) / W = N / W + 1.
Proof.
  intros HN HW Hr.
  pose proof (Z.mod_pos_bound N W HW).
  pose proof (Z.div_mod N W ltac:(lia)) as E.
  symmetry. apply (Z.div_unique_pos _ _ _ (N mod W - 1)); lia.
Qed.

(** The slices of [N] items for [W] workers, range by range. *)
Lemma slices_nth (N W i : Z) :
  0 <= N < SIZE_MOD -> 0 < W < SIZE_MOD -> 0 <= i < W ->
  nth (Z.to_nat i) (slices N W) (0, 0)
  = (bound (N / W) (N mod W) i, bound (N / W) (N mod W) (i + 1)).
Proof.
  intros HN HW Hi.
  assert (Hb : 0 <= N / W) by (apply Z.div_pos; lia).
  pose proof (Z.mod_pos_bound N W ltac:(lia)) as Hr.
  pose proof (bound_last N W ltac:(lia) ltac:(lia)) as Hlast.
  pose proof (bound_0 (N / W) (N mod W) ltac:(lia)) as Hfirst.
  assert (Hsl : slices N W
                = slices_from (Z.to_nat W) 0 (N / W) (N mod W)
                              (bound (N / W) (N mod W) 0)).
  { unfold slices. now rewrite Hfirst. }
  rewrite Hsl, slices_from_nth; try lia.
  - rewrite Z.add_0_l, Z2Nat.id by lia. reflexivity.
  - rewrite Z.add_0_l, Z2Nat.id by lia. lia.
Qed.

Lemma slices_chained (N W : Z) :
  0 <= N < SIZE_MOD -> 0 < W < SIZE_MOD -> chained 0 (slices N W) N.
Proof.
  intros HN HW.
  assert (Hb : 0 <= N / W) by (apply Z.div_pos; lia).
  pose proof (Z.mod_pos_bound N W ltac:(lia)) as Hr.
  pose proof (bound_last N W ltac:(lia) ltac:(lia)) as Hlast.
  pose proof (bound_0 (N / W) (N mod W) ltac:(lia)) as Hfirst.
  assert (Hmax : bound (N / W) (N mod W) (0 + Z.of_nat (Z.to_nat W)) < SIZE_MOD).
  { rewrite Z.add_0_l, Z2Nat.id by lia. lia. }
  pose proof (slices_from_chained (N / W) (N mod W) (Z.to_nat W) 0
                ltac:(lia) ltac:(lia) ltac:(lia) Hmax) as H.
  rewrite Hfirst, Z.add_0_l, Z2Nat.id, Hlast in H by lia.
  exact H.
Qed.

(** Put end to end, the slices of a list give back the list. *)
Lemma slices_concat {A : Type} (lst : list A) (W : Z) :
  Z.of_nat (length lst) < SIZE_MOD -> 0 < W < SIZE_MOD ->
  concat (map (range_items lst) (slices (Z.of_nat (length lst)) W)) = lst.
Proof.
  intros HN HW.
  rewrite (chained_concat lst _ 0 (Z.of_nat (length lst)));
    [|lia|apply slices_chained; lia].
  cbn [Z.to_nat skipn]. rewrite Z.sub_0_r. apply firstn_all2. lia.
Qed.

(** C3. For [N] items and [W >= 2] workers the slice loop yields [W] ranges
    that follow one another from 0 to [N] (ordered, disjoint, covering
    [0, N) exactly: put end to end they give back the list of items).  The
    range of index [i] starts at [i * (N / W) + min i (N mod W)] and holds
    [N / W + 1] items when [i < N mod W] and [N / W] items otherwise, so
    that each size is the floor or the ceiling of [N / W] and the larger
    ranges come first.  When [N < W] every range from index [N] on is empty,
    and a worker given an empty range leaves the state as it is. *)
Theorem slices_partition (N W : Z) :
  0 <= N < SIZE_MOD -> 2 <= W < SIZE_MOD ->
  length (slices N W) = Z.to_nat W /\
  chained 0 (slices N W) N /\
  (forall i, 0 <= i < W ->
     nth (Z.to_nat i) (slices N W) (0, 0)
     = (bound (N / W) (N mod W) i, bound (N / W) (N mod W) (i + 1)) /\
     bound (N / W) (N mod W) (i + 1) - bound (N / W) (N mod W) i
     = N / W + (if i <? N mod W then 1 else 0)) /\
  Forall (fun se => 0 <= fst se <= snd se /\ snd se <= N /\
                    (snd se - fst se = N / W \/
                     snd se - fst se = (N + W - 1) / W)) (slices N W) /\
  (forall (A : Type) (lst : list A), Z.of_nat (length lst) = N ->
     concat (map (range_items lst) (slices N W)) = lst) /\
  (N < W -> forall i, N <= i < W ->
     nth (Z.to_nat i) (slices N W) (0, 0) = (N, N)) /\
  (forall (A : Type) (fn : A -> cb) (enter : A -> state -> state)
          (lst : list A) (se : Z * Z) (st : state),
     fst se = snd se ->
     range_items lst se = [] /\
     run_items fn enter (range_items lst se) st = st /\
     finish_thread fn enter (mk_thread Ret (range_items lst se)) st = st /\
     thread_step fn enter (mk_thread Ret (range_items lst se)) st
     = (mk_thread Ret [], st)).
Proof.
  intros HN HW.
  assert (Hb : 0 <= N / W) by (apply Z.div_pos; lia).
  pose proof (Z.mod_pos_bound N W ltac:(lia)) as Hr.
  pose proof (bound_last N W ltac:(lia) ltac:(lia)) as Hlast.
  pose proof (bound_0 (N / W) (N mod W) ltac:(lia)) as Hfirst.
  assert (Hsz : forall i, 0 <= i < W ->
     bound (N / W) (N mod W) (i + 1) - bound (N / W) (N mod W) i
     = N / W + (if i <? N mod W then 1 else 0)).
  { intros i Hi. rewrite bound_step by lia. lia. }
  split; [apply slices_from_length|].
  split; [apply slices_chained; lia|].
  split; [intros i Hi; split; [apply slices_nth; lia | now apply Hsz]|].
  split.
  { apply Forall_forall. intros se Hin.
    destruct (In_nth _ _ (0, 0) Hin) as (k & Hk & Ek).
    unfold slices in Hk. rewrite slices_from_length in Hk.
    pose proof (slices_nth N W (Z.of_nat k) ltac:(lia) ltac:(lia) ltac:(lia))
      as Hnth.
    specialize (Hsz (Z.of_nat k) ltac:(lia)).
    rewrite Nat2Z.id, Ek in Hnth. rewrite Hnth. cbn [fst snd].
    assert (0 <= bound (N / W) (N mod W) (Z.of_nat k)).
    { rewrite <- Hfirst. apply bound_mono; lia. }
    assert (bound (N / W) (N mod W) (Z.of_nat k + 1) <= N).
    { rewrite <- Hlast at 3. apply bound_mono; lia. }
    rewrite Hsz. destruct (Z.ltb_spec (Z.of_nat k) (N mod W)).
    - rewrite ceil_div by lia. lia.
    - lia. }
  split.
  { intros A lst Hlen. subst N. apply slices_concat; lia. }
  split.
  { intros HNW i Hi. rewrite slices_nth by lia.
    rewrite Z.div_small, Z.mod_small by lia. unfold bound. f_equal; lia. }
  intros A fn enter lst se st E.
  assert (E0 : range_items lst se = []).
  { unfold range_items. rewrite E, Z.sub_diag. reflexivity. }
  rewrite E0. repeat split; reflexivity.
Qed.

(** ** Invariants of a stage *)

Section StageInvariant.

(** [Inv] is a property of the globals that every emit call of a callback
    in [Cb] preserves; [Cb] is closed under continuation. *)
Variable Inv : state -> Prop.
Variable Cb : cb -> Prop.
Hypothesis Cb_next_i : forall k v next, Cb (EmitI k v next) -> forall r, Cb (next r).
Hypothesis Cb_next_f : forall k v next, Cb (EmitF k v next) -> forall r, Cb (next r).
Hypothesis Inv_emit_i : forall k v next st,
  Cb (EmitI k v next) -> Inv st -> Inv (snd (mr_emit_i k v st)).
Hypothesis Inv_emit_f : forall k v next st,
  Cb (EmitF k v next) -> Inv st -> Inv (snd (mr_emit_f k v st)).

Context {A : Type}.
Variable fn : A -> cb.
Variable enter : A -> state -> state.
Hypothesis Cb_fn : forall x, Cb (fn x).
Hypothesis Inv_enter : forall x st, Inv st -> Inv (enter x st).

Lemma run_cb_inv (c : cb) : forall st, Cb c -> Inv st -> Inv (run_cb c st).
Proof.
  induction c as [|k v next IH|k v next IH]; intros st Hc Hi; cbn [run_cb].
  - exact Hi.
  - pose proof (Inv_emit_i k v next st Hc Hi) as H.
    destruct (mr_emit_i k v st) as [r st']. apply IH; eauto.
  - pose proof (Inv_emit_f k v next st Hc Hi) as H.
    destruct (mr_emit_f k v st) as [r st']. apply IH; eauto.
Qed.

Lemma run_items_inv (items : list A) : forall st,
  Inv st -> Inv (run_items fn enter items st).
Proof.
  induction items as [|x r IH]; intros st Hi; cbn [run_items]; [exact Hi|].
  apply IH, run_cb_inv; auto.
Qed.

Lemma thread_step_inv (t : thread) (st : state) :
  Cb (running t) -> Inv st ->
  Cb (running (fst (thread_step fn enter t st))) /\
  Inv (snd (thread_step fn enter t st)).
Proof.
  intros Hc Hi. unfold thread_step.
  destruct (running t) as [|k v next|k v next] eqn:E.
  - destruct (todo t) as [|x r]; cbn; [rewrite E|]; split; auto.
  - pose proof (Inv_emit_i k v next st Hc Hi) as H.
    destruct (mr_emit_i k v st) as [r st']. cbn in *. eauto.
  - pose proof (Inv_emit_f k v next st Hc Hi) as H.
    destruct (mr_emit_f k v st) as [r st']. cbn in *. eauto.
Qed.

Lemma pool_step_inv (pool : list thread) : forall i st,
  Forall (fun t => Cb (running t)) pool -> Inv st ->
  Forall (fun t => Cb (running t)) (fst (pool_step fn enter i pool st)) /\
  Inv (snd (pool_step fn enter i pool st)).
Proof.
  induction pool as [|t rest IH]; intros i st Hp Hi; cbn [pool_step].
  - split; auto.
  - inversion Hp as [|? ? Ht Hrest]; subst. destruct i as [|i].
    + destruct (thread_step_inv t st Ht Hi) as [H1 H2].
      destruct (thread_step fn enter t st) as [t' st']. cbn in *. split; auto.
    + destruct (IH i st Hrest Hi) as [H1 H2].
      destruct (pool_step fn enter i rest st) as [rest' st']. cbn in *. split; auto.
Qed.

Lemma run_schedule_inv (sched : list nat) : forall pool st,
  Forall (fun t => Cb (running t)) pool -> Inv st ->
  Forall (fun t => Cb (running t)) (fst (run_schedule fn enter sched pool st)) /\
  Inv (snd (run_schedule fn enter sched pool st)).
Proof.
  induction sched as [|i s IH]; intros pool st Hp Hi; cbn [run_schedule].
  - split; auto.
  - destruct (pool_step_inv pool i st Hp Hi) as [H1 H2].
    destruct (pool_step fn enter i pool st) as [pool' st']. cbn in *.
    now apply IH.
Qed.

Lemma join_all_inv (pool : list thread) : forall st,
  Forall (fun t => Cb (running t)) pool -> Inv st ->
  Inv (join_all fn enter pool st).
Proof.
  induction pool as [|t rest IH]; intros st Hp Hi; cbn [join_all]; [exact Hi|].
  inversion Hp as [|? ? Ht Hrest]; subst.
  apply IH; [exact Hrest|]. unfold finish_thread.
  apply run_items_inv, run_cb_inv; auto.
Qed.

Hypothesis Cb_Ret : Cb Ret.

Lemma stage_inv (lst : list A) (workers : Z) (sched : list nat) (st : state) :
  Inv st -> Inv (stage fn enter lst workers sched st).
Proof.
  intros Hi. unfold stage. destruct (workers <=? 1).
  - now apply run_items_inv.
  - unfold fan_out.
    set (pool := map (mk_thread Ret) _).
    assert (Hp : Forall (fun t => Cb (running t)) pool).
    { apply Forall_forall. intros t Ht. apply in_map_iff in Ht.
      destruct Ht as (x & <- & _). exact Cb_Ret. }
    destruct (run_schedule_inv sched pool st Hp Hi) as [H1 H2].
    destruct (run_schedule fn enter sched pool st) as [pool' st'].
    cbn in *. now apply join_all_inv.
Qed.

End StageInvariant.

(** The map stage hands nothing to the reduce callback. *)
Lemma map_stage_reduce_calls (input : list mr_in_kv) (map_fn : mr_in_kv -> cb)
    (mapper_count : Z) (sched : list nat) (st : state) :
  reduce_calls (map_stage input map_fn mapper_count sched st) = reduce_calls st.
Proof.
  unfold map_stage.
  apply (stage_inv (fun s => reduce_calls s = reduce_calls st) (fun _ => True));
    auto.
  - intros k v _ s _ H. unfold mr_emit_i.
    destruct (inter_cap s <=? inter_count s);
      [destruct (realloc_ok (reallocs s))|]; exact H.
  - intros k v _ s _ H. unfold mr_emit_f.
    destruct (final_cap s <=? final_count s);
      [destruct (realloc_ok (reallocs s))|]; exact H.
Qed.

(** Callbacks whose keys fit leave both buffers well-formed. *)
Lemma stage_wf {A : Type} (fn : A -> cb) (enter : A -> state -> state)
    (lst : list A) (workers : Z) (sched : list nat) (st : state) :
  (forall x, cb_keys_fit (fn x)) ->
  (forall x s, inter_kvs (enter x s) = inter_kvs s /\
               final_kvs (enter x s) = final_kvs s) ->
  Forall kv_wf (inter_kvs st) /\ Forall kv_wf (final_kvs st) ->
  Forall kv_wf (inter_kvs (stage fn enter lst workers sched st)) /\
  Forall kv_wf (final_kvs (stage fn enter lst workers sched st)).
Proof.
  intros Hfn Henter Hst.
  apply (stage_inv
           (fun s => Forall kv_wf (inter_kvs s) /\ Forall kv_wf (final_kvs s))
           cb_keys_fit); auto.
  - intros k v next Hc r. now inversion Hc.
  - intros k v next Hc r. now inversion Hc.
  - intros k v next s Hc [H1 H2]. inversion Hc as [|? ? ? Hk _|]; subst.
    unfold mr_emit_i.
    destruct (inter_cap s <=? inter_count s);
      [destruct (realloc_ok (reallocs s))|]; cbn; split; auto;
      apply Forall_app; split; auto; constructor; auto;
      now apply slot_of_wf.
  - intros k v next s Hc [H1 H2]. inversion Hc as [| |? ? ? Hk _]; subst.
    unfold mr_emit_f.
    destruct (final_cap s <=? final_count s);
      [destruct (realloc_ok (reallocs s))|]; cbn; split; auto;
      apply Forall_app; split; auto; constructor; auto;
      now apply slot_of_wf.
  - intros x s [H1 H2]. destruct (Henter x s) as [-> ->]. now split.
  - constructor.
Qed.

(** ** A run without intermediate pairs *)

Section IdleThreads.

Context {A : Type}.
Variable fn : A -> cb.
Variable enter : A -> state -> state.

Lemma pool_step_idle (pool : list thread) : forall i st,
  Forall idle pool -> pool_step fn enter i pool st = (pool, st).
Proof.
  induction pool as [|t rest IH]; intros i st Hp; cbn [pool_step];
    [reflexivity|].
  inversion Hp as [|? ? [Hr Ht] Hrest]; subst. destruct i as [|i].
  - unfold thread_step. now rewrite Hr, Ht.
  - now rewrite IH.
Qed.

Lemma run_schedule_idle (sched : list nat) : forall pool st,
  Forall idle pool -> run_schedule fn enter sched pool st = (pool, st).
Proof.
  induction sched as [|i s IH]; intros pool st Hp; cbn [run_schedule];
    [reflexivity|].
  rewrite pool_step_idle by exact Hp. now apply IH.
Qed.

Lemma join_all_idle (pool : list thread) : forall st,
  Forall idle pool -> join_all fn enter pool st = st.
Proof.
  induction pool as [|t rest IH]; intros st Hp; cbn [join_all];
    [reflexivity|].
  inversion Hp as [|? ? [Hr Ht] Hrest]; subst.
  unfold finish_thread. rewrite Hr, Ht. cbn. now apply IH.
Qed.

Lemma range_items_nil (se : Z * Z) : range_items (@nil A) se = [].
Proof. unfold range_items. now rewrite skipn_nil, firstn_nil. Qed.

(** A stage over no item at all leaves the globals as they are, for every
    number of workers and every schedule. *)
Lemma stage_nil (workers : Z) (sched : list nat) (st : state) :
  stage fn enter [] workers sched st = st.
Proof.
  unfold stage. destruct (workers <=? 1); [reflexivity|].
  unfold fan_out. set (pool := map (mk_thread Ret) _).
  assert (Hp : Forall idle pool).
  { apply Forall_forall. intros t Ht. apply in_map_iff in Ht.
    destruct Ht as (x & <- & Hx). apply in_map_iff in Hx.
    destruct Hx as (se & <- & _). split; [reflexivity|].
    apply range_items_nil. }
  rewrite run_schedule_idle by exact Hp. now apply join_all_idle.
Qed.

End IdleThreads.

(** C6. When the map stage leaves the intermediate buffer empty, [mr_exec]
    returns 0 with an output of zero records right after the map stage: the
    globals are those the map stage left, no group is built and the reduce
    callback is not invoked.  This is the case of an empty input, for every
    number of mappers and every schedule. *)
Theorem exec_no_intermediate_pairs
    (map_fn : mr_in_kv -> cb) (mapper_count : Z)
    (reduce_fn : mr_out_kv -> cb) (reducer_count : Z)
    (output : mr_output) (sched_m sched_r : list nat) (st : state) :
  (forall input : list mr_in_kv,
     inter_kvs (map_stage input map_fn mapper_count sched_m (reset st)) = [] ->
     exists out st',
       mr_exec input map_fn mapper_count reduce_fn reducer_count output
               sched_m sched_r st = Returned 0 out st' /\
       count out = 0 /\
       st' = map_stage input map_fn mapper_count sched_m (reset st) /\
       reduce_calls st' = reduce_calls st) /\
  (exists out,
     mr_exec [] map_fn mapper_count reduce_fn reducer_count output
             sched_m sched_r st = Returned 0 out (reset st) /\
     count out = 0 /\
     reduce_calls (reset st) = reduce_calls st).
Proof.
  split.
  - intros input H. unfold mr_exec, inter_count. rewrite H. cbn.
    eexists; eexists. split; [reflexivity|]. split; [reflexivity|].
    split; [reflexivity|]. now rewrite map_stage_reduce_calls.
  - unfold mr_exec, map_stage. rewrite stage_nil. cbn.
    eexists. split; [reflexivity|]. split; reflexivity.
Qed.

(** C10. When the map stage leaves the intermediate buffer empty, [mr_exec]
    stores the null pointer in [output->kv_lst] and 0 in [output->count]:
    no array is handed to the caller. *)
Theorem exec_no_pairs_null_output
    (input : list mr_in_kv) (map_fn : mr_in_kv -> cb) (mapper_count : Z)
    (reduce_fn : mr_out_kv -> cb) (reducer_count : Z)
    (output : mr_output) (sched_m sched_r : list nat) (st : state) :
  inter_count (map_stage input map_fn mapper_count sched_m (reset st)) = 0 ->
  exists st',
    mr_exec input map_fn mapper_count reduce_fn reducer_count output
            sched_m sched_r st
    = Returned 0 {| kv_lst := None; count := 0 |} st'.
Proof.
  intros H. unfold mr_exec. rewrite H. cbn. eexists. reflexivity.
Qed.

(** ** Sorted buffers *)

Lemma cmp_kv_terminated (a b : kv_pair_t) :
  In NUL (key a) -> In NUL (key b) ->
  exists z, cmp_kv a b = Some z /\
            (z ?= 0) = bytes_compare (ckey a) (ckey b).
Proof. apply strcmp_terminated. Qed.

Lemma kv_le_key_le (a b : kv_pair_t) :
  In NUL (key a) -> In NUL (key b) -> (kv_le a b <-> key_le a b).
Proof.
  intros Ha Hb. destruct (cmp_kv_terminated a b Ha Hb) as (z & Hz & Hs).
  unfold kv_le, key_le, bytes_le. rewrite <- Hs. split.
  - intros (z' & Hz' & Hle). rewrite Hz in Hz'. inversion Hz'; subst z'.
    exact Hle.
  - intros Hng. exists z. split; [exact Hz | exact Hng].
Qed.

Lemma StronglySorted_impl_in {A : Type} (R S : A -> A -> Prop) (l : list A) :
  (forall x y, In x l -> In y l -> R x y -> S x y) ->
  StronglySorted R l -> StronglySorted S l.
Proof.
  induction l as [|x l IH]; intros HRS Hs; [constructor|].
  apply StronglySorted_inv in Hs. destruct Hs as [Hs Hx].
  constructor.
  - apply IH; [|exact Hs]. intros a b Ha Hb. apply HRS; now right.
  - rewrite Forall_forall in *. intros y Hy.
    apply HRS; [now left | now right | now apply Hx].
Qed.

Lemma StronglySorted_skipn {A : Type} (R : A -> A -> Prop) (n : nat) :
  forall l, StronglySorted R l -> StronglySorted R (skipn n l).
Proof.
  induction n as [|n IH]; intros l Hs; [exact Hs|].
  destruct l as [|x l]; [exact Hs|]. cbn [skipn].
  apply IH. now apply StronglySorted_inv in Hs.
Qed.

Lemma StronglySorted_map {A B : Type} (R : B -> B -> Prop) (f : A -> B)
    (l : list A) :
  StronglySorted (fun x y => R (f x) (f y)) l <-> StronglySorted R (map f l).
Proof.
  induction l as [|x l IH]; cbn [map].
  - split; constructor.
  - split; intros Hs; apply StronglySorted_inv in Hs; destruct Hs as [Hs Hx];
      constructor; try (now apply IH).
    + rewrite Forall_map. exact Hx.
    + rewrite Forall_map in Hx. exact Hx.
Qed.

(** What [qsort] returns on a buffer of terminated keys is ordered by the
    byte-wise lexicographic order of the key strings. *)
Lemma qsort_key_sorted (l : list kv_pair_t) :
  qsort_spec qsort -> Forall (fun p => In NUL (key p)) l ->
  Permutation l (qsort l) /\ StronglySorted key_le (qsort l).
Proof.
  intros Hq Hl. destruct (Hq l Hl) as [Hp Hs]. split; [exact Hp|].
  assert (Hl' : Forall (fun p => In NUL (key p)) (qsort l)).
  { rewrite Forall_forall in *. intros x Hx. apply Hl.
    eapply Permutation_in; [symmetry; exact Hp | exact Hx]. }
  rewrite Forall_forall in Hl'.
  eapply StronglySorted_impl_in; [|exact Hs].
  intros x y Hx Hy. apply kv_le_key_le; auto.
Qed.

Lemma Permutation_filter {A : Type} (f : A -> bool) (l l' : list A) :
  Permutation l l' -> Permutation (filter f l) (filter f l').
Proof.
  induction 1 as [|x l l' _ IH|x y l|l l' l'' _ IH1 _ IH2]; cbn [filter].
  - constructor.
  - destruct (f x); [now constructor | exact IH].
  - destruct (f x), (f y); try reflexivity. apply perm_swap.
  - now transitivity (filter f l').
Qed.

Lemma bytes_eqb_eq (a b : list byte) : bytes_eqb a b = true <-> a = b.
Proof.
  unfold bytes_eqb. destruct (bytes_eq_dec a b); split; congruence.
Qed.

Lemma pairs_with_key_all (k : list byte) (l : list kv_pair_t) :
  Forall (fun q => ckey q = k) l -> pairs_with_key k l = l.
Proof.
  induction 1 as [|q l Hq _ IH]; cbn; [reflexivity|].
  apply bytes_eqb_eq in Hq. rewrite Hq. f_equal. exact IH.
Qed.

Lemma pairs_with_key_none (k : list byte) (l : list kv_pair_t) :
  Forall (fun q => ckey q <> k) l -> pairs_with_key k l = [].
Proof.
  induction 1 as [|q l Hq _ IH]; cbn; [reflexivity|].
  destruct (bytes_eqb (ckey q) k) eqn:E; [|exact IH].
  apply bytes_eqb_eq in E. contradiction.
Qed.

Lemma nodup_block (k : list byte) (blk rest : list (list byte)) :
  Forall (fun x => x = k) blk -> ~ In k rest ->
  nodup bytes_eq_dec (k :: blk ++ rest) = k :: nodup bytes_eq_dec rest.
Proof.
  induction 1 as [|x blk -> _ IH]; intros Hn; cbn [app nodup].
  - destruct (in_dec bytes_eq_dec k rest); [contradiction | reflexivity].
  - destruct (in_dec bytes_eq_dec k (k :: blk ++ rest)) as [_|Hc].
    + now apply IH.
    + exfalso. apply Hc. now left.
Qed.

(** Removing the repetitions of a sorted list leaves a strictly sorted one. *)
Lemma nodup_strictly_sorted (ks : list (list byte)) :
  StronglySorted bytes_le ks -> StronglySorted bytes_lt (nodup bytes_eq_dec ks).
Proof.
  induction ks as [|k ks IH]; intros Hs; [constructor|].
  apply StronglySorted_inv in Hs. destruct Hs as [Hs Hk].
  cbn [nodup]. destruct (in_dec bytes_eq_dec k ks) as [Hin|Hin]; [now apply IH|].
  constructor; [now apply IH|].
  rewrite Forall_forall in *. intros x Hx. apply nodup_In in Hx.
  destruct (proj1 (bytes_le_lt_or_eq k x) (Hk x Hx)) as [H|H]; [exact H|].
  subst. contradiction.
Qed.

(** Two strictly sorted lists with the same elements are the same list. *)
Lemma strictly_sorted_unique (l1 : list (list byte)) : forall l2,
  StronglySorted bytes_lt l1 -> StronglySorted bytes_lt l2 ->
  (forall x, In x l1 <-> In x l2) -> l1 = l2.
Proof.
  induction l1 as [|a l1 IH]; intros [|b l2] H1 H2 Hin.
  - reflexivity.
  - exfalso. apply (proj2 (Hin b)). now left.
  - exfalso. apply (proj1 (Hin a)). now left.
  - apply StronglySorted_inv in H1, H2.
    destruct H1 as [H1 Ha], H2 as [H2 Hb].
    rewrite Forall_forall in Ha, Hb.
    assert (E : a = b).
    { destruct (proj1 (Hin a) (or_introl eq_refl)) as [E|Hab]; [now subst|].
      destruct (proj2 (Hin b) (or_introl eq_refl)) as [E|Hba]; [exact E|].
      exfalso. apply (bytes_lt_irrefl a).
      eapply bytes_lt_trans; [apply Ha, Hba | apply Hb, Hab]. }
    subst b. f_equal. apply IH; auto.
    intros x. split; intros Hx.
    + destruct (proj1 (Hin x) (or_intror Hx)) as [E|H]; [|exact H].
      subst x. exfalso. apply (bytes_lt_irrefl a). now apply Ha.
    + destruct (proj2 (Hin x) (or_intror Hx)) as [E|H]; [|exact H].
      subst x. exfalso. apply (bytes_lt_irrefl a). now apply Hb.
Qed.

(** ** The group-building walk *)

Lemma strcmp_zero (a b : list byte) (z : Z) :
  In NUL a -> In NUL b -> strcmp a b = Some z ->
  (z =? 0) = bytes_eqb (c_str a) (c_str b).
Proof.
  intros Ha Hb Hz. destruct (strcmp_terminated a b Ha Hb) as (z' & Hz' & Hs).
  rewrite Hz in Hz'. inversion Hz'; subst z'. unfold bytes_eqb.
  destruct (bytes_eq_dec (c_str a) (c_str b)) as [E|E].
  - rewrite E, bytes_compare_refl in Hs. apply Z.compare_eq_iff in Hs.
    now apply Z.eqb_eq.
  - apply Z.eqb_neq. intros ->. cbn in Hs. symmetry in Hs.
    now apply bytes_compare_eq in Hs.
Qed.

(** The inner [while] stops at the first slot whose key is another string. *)
Lemma same_key_run_spec (k : list byte) (r : list kv_pair_t) :
  In NUL k -> Forall (fun p => In NUL (key p)) r ->
  exists n, same_key_run k r = Some n /\ (n <= length r)%nat /\
            Forall (fun q => ckey q = c_str k) (firstn n r) /\
            (forall q, hd_error (skipn n r) = Some q -> ckey q <> c_str k).
Proof.
  intros Hk. induction 1 as [|q r Hq _ IH]; cbn [same_key_run].
  - exists O. cbn. repeat split; auto. discriminate.
  - destruct (strcmp_terminated (key q) k Hq Hk) as (z & Hz & _).
    rewrite Hz. rewrite (strcmp_zero _ _ _ Hq Hk Hz).
    destruct (bytes_eqb (c_str (key q)) (c_str k)) eqn:E.
    + destruct IH as (n & Hn & Hle & Hblk & Hhd). rewrite Hn.
      exists (S n). cbn. repeat split; auto; try lia.
      constructor; [|exact Hblk]. now apply bytes_eqb_eq in E.
    + exists O. cbn. repeat split; auto; try lia.
      intros q' Hq'. inversion Hq'; subst q'. intros E'.
      apply bytes_eqb_eq in E'. unfold ckey in E'. congruence.
Qed.

(** In a sorted buffer no slot after the run bears the key of the run. *)
Lemma after_run_differs (p : kv_pair_t) (r : list kv_pair_t) (n : nat) :
  StronglySorted key_le (p :: r) ->
  (forall q, hd_error (skipn n r) = Some q -> ckey q <> ckey p) ->
  Forall (fun q => ckey q <> ckey p) (skipn n r).
Proof.
  intros Hs Hhd. apply StronglySorted_inv in Hs. destruct Hs as [Hs Hp].
  pose proof (StronglySorted_skipn key_le n r Hs) as Hs'.
  assert (Hp' : Forall (key_le p) (skipn n r)).
  { rewrite Forall_forall in *. intros x Hx. apply Hp. eapply in_skipn; eauto. }
  destruct (skipn n r) as [|q rest]; [constructor|].
  apply StronglySorted_inv in Hs'. destruct Hs' as [_ Hq].
  inversion Hp' as [|? ? Hpq _]; subst.
  specialize (Hhd q eq_refl).
  assert (Hlt : bytes_lt (ckey p) (ckey q)).
  { destruct (proj1 (bytes_le_lt_or_eq _ _) Hpq); [assumption | congruence]. }
  constructor; [exact Hhd|].
  rewrite Forall_forall in *. intros y Hy E.
  destruct (proj1 (bytes_le_lt_or_eq _ _) (Hq y Hy)) as [H|H].
  - apply (bytes_lt_irrefl (ckey p)). rewrite <- E at 2.
    eapply bytes_lt_trans; eauto.
  - apply (bytes_lt_irrefl (ckey p)). rewrite <- E at 2. now rewrite <- H.
Qed.

Lemma Forall_skipn {A : Type} (P : A -> Prop) (n : nat) (l : list A) :
  Forall P l -> Forall P (skipn n l).
Proof.
  rewrite !Forall_forall. intros H x Hx. apply H. eapply in_skipn; eauto.
Qed.

Lemma kv_wf_terminated (l : list kv_pair_t) :
  Forall kv_wf l -> Forall (fun p => In NUL (key p)) l.
Proof. apply Forall_impl. now intros p [_ H]. Qed.

(** The walk does not run out of rounds: from [length l] on, more fuel
    does not change its result. *)
Lemma group_loop_fuel (f1 : nat) : forall f2 l a,
  (length l <= f1)%nat -> (length l <= f2)%nat ->
  group_loop f1 l a = group_loop f2 l a.
Proof.
  induction f1 as [|f1 IH]; intros f2 l a H1 H2.
  - destruct l; [|cbn in H1; lia]. now destruct f2.
  - destruct l as [|p r]; [now destruct f2|].
    destruct f2 as [|f2]; [cbn in H2; lia|].
    cbn [group_loop]. destruct (same_key_run (key p) r) as [n|]; [|reflexivity].
    destruct (malloc_ok a); [|reflexivity].
    cbn [skipn]. rewrite (IH f2); [reflexivity| |];
      rewrite length_skipn; cbn in H1, H2; lia.
Qed.

(** On a sorted buffer of well-formed slots the walk makes one [malloc] per
    distinct key.  If all of them succeed it builds one group per distinct
    key, in the order of the keys, holding the values of all the slots that
    bear the key; otherwise it gives up. *)
Lemma group_loop_sorted (fuel : nat) : forall s a,
  (length s <= fuel)%nat -> Forall kv_wf s -> StronglySorted key_le s ->
  group_loop fuel s a
  = if forallb malloc_ok (seq a (length (distinct_keys s)))
    then Groups (map (group_of s) (distinct_keys s))
                (a + length (distinct_keys s))
    else NoMemory.
Proof.
  induction fuel as [|fuel IH]; intros s a Hlen Hwf Hs.
  - destruct s; [|cbn in Hlen; lia]. cbn. now rewrite Nat.add_0_r.
  - destruct s as [|p r]; [cbn; now rewrite Nat.add_0_r|].
    inversion Hwf as [|? ? [_ Hp] Hwr]; subst.
    destruct (same_key_run_spec (key p) r Hp (kv_wf_terminated r Hwr))
      as (n & Hn & Hle & Hblk & Hhd).
    pose proof (after_run_differs p r n Hs Hhd) as Hrest.
    assert (Hsplit : p :: r = (p :: firstn n r) ++ skipn n r).
    { cbn [app]. now rewrite firstn_skipn. }
    assert (Hblk' : Forall (fun q => ckey q = ckey p) (p :: firstn n r)).
    { constructor; [reflexivity | exact Hblk]. }
    assert (Hkeys : distinct_keys (p :: r)
                    = ckey p :: distinct_keys (skipn n r)).
    { unfold distinct_keys. rewrite <- (firstn_skipn n r) at 1.
      cbn [map]. rewrite map_app. apply nodup_block.
      - rewrite Forall_map. exact Hblk.
      - intros Hin. apply in_map_iff in Hin. destruct Hin as (q & Eq & Hq).
        rewrite Forall_forall in Hrest. now apply (Hrest q Hq). }
    cbn [group_loop]. rewrite Hn, Hkeys. cbn [length seq forallb skipn map].
    destruct (malloc_ok a); cbn [andb]; [|reflexivity].
    rewrite (IH (skipn n r) (S a)).
    2:{ rewrite length_skipn. cbn in Hlen. lia. }
    2:{ now apply Forall_skipn. }
    2:{ apply StronglySorted_skipn. now apply StronglySorted_inv in Hs. }
    destruct (forallb malloc_ok _); [|reflexivity].
    f_equal; [|lia]. f_equal.
    + unfold group_of.
      assert (E : pairs_with_key (ckey p) (p :: r) = firstn (S n) (p :: r)).
      { rewrite Hsplit at 1. unfold pairs_with_key. rewrite filter_app.
        fold (pairs_with_key (ckey p) (p :: firstn n r)).
        fold (pairs_with_key (ckey p) (skipn n r)).
        rewrite pairs_with_key_all by exact Hblk'.
        rewrite pairs_with_key_none by exact Hrest.
        now rewrite app_nil_r. }
      rewrite E. unfold ckey. rewrite strncpy_c_str. f_equal.
      cbn [firstn length]. rewrite length_firstn. f_equal. lia.
    + symmetry. apply map_ext_in. intros k Hk. unfold group_of.
      assert (E : pairs_with_key k (p :: r) = pairs_with_key k (skipn n r)).
      { rewrite Hsplit. unfold pairs_with_key. rewrite filter_app.
        fold (pairs_with_key k (p :: firstn n r)).
        rewrite pairs_with_key_none; [reflexivity|].
        apply nodup_In, in_map_iff in Hk. destruct Hk as (q & Eq & Hq).
        rewrite Forall_forall in Hrest. specialize (Hrest q Hq).
        eapply Forall_impl; [|exact Hblk']. cbn. intros x Hx. congruence. }
      now rewrite E.
Qed.

(** ** The group-by-key stage *)

Lemma ckey_wf (q : kv_pair_t) :
  kv_wf q -> c_str (strncpy (ckey q) MAX_KEY_SIZE) = ckey q.
Proof.
  intros [Hlen Hnul]. unfold ckey. rewrite c_str_strncpy, c_str_idem.
  apply firstn_all2. pose proof (c_str_terminated _ Hnul). lia.
Qed.

Lemma group_of_key (s : list kv_pair_t) (k : list byte) :
  Forall kv_wf s -> In k (distinct_keys s) ->
  c_str (out_key (group_of s k)) = k.
Proof.
  intros Hwf Hk. apply nodup_In, in_map_iff in Hk.
  destruct Hk as (q & <- & Hq). rewrite Forall_forall in Hwf.
  cbn [group_of out_key]. now apply ckey_wf, Hwf.
Qed.

Lemma group_keys (s : list kv_pair_t) :
  Forall kv_wf s ->
  map (fun g => c_str (out_key g)) (map (group_of s) (distinct_keys s))
  = distinct_keys s.
Proof.
  intros Hwf. rewrite map_map. rewrite <- (map_id (distinct_keys s)) at 2.
  apply map_ext_in. intros k Hk. now apply group_of_key.
Qed.

Lemma distinct_keys_perm (l s : list kv_pair_t) :
  Permutation l s -> Permutation (distinct_keys l) (distinct_keys s).
Proof.
  intros Hp. unfold distinct_keys.
  apply NoDup_Permutation; try apply NoDup_nodup.
  intros k. rewrite !nodup_In.
  split; apply Permutation_in; [|symmetry]; now apply Permutation_map.
Qed.

Lemma distinct_keys_sorted (s : list kv_pair_t) :
  StronglySorted key_le s -> StronglySorted bytes_lt (distinct_keys s).
Proof.
  intros Hs. apply nodup_strictly_sorted.
  apply (StronglySorted_map bytes_le ckey s). exact Hs.
Qed.

Lemma Forall_perm {A : Type} (P : A -> Prop) (l l' : list A) :
  Permutation l l' -> Forall P l -> Forall P l'.
Proof.
  intros Hp. rewrite !Forall_forall. intros H x Hx. apply H.
  eapply Permutation_in; [symmetry; exact Hp | exact Hx].
Qed.

(** The stage as a whole, on a well-formed buffer: it makes one [malloc]
    for the group array and one per distinct key, and the groups are those
    of the sorted buffer. *)
Lemma group_stage_groups (st : state) :
  qsort_spec qsort -> Forall kv_wf (inter_kvs st) ->
  Permutation (inter_kvs st) (qsort (inter_kvs st)) /\
  StronglySorted key_le (qsort (inter_kvs st)) /\
  Forall kv_wf (qsort (inter_kvs st)) /\
  group_stage st
  = if forallb malloc_ok
         (seq 0 (S (length (distinct_keys (inter_kvs st)))))
    then Groups (map (group_of (qsort (inter_kvs st)))
                     (distinct_keys (qsort (inter_kvs st))))
                (S (length (distinct_keys (inter_kvs st))))
    else NoMemory.
Proof.
  intros Hq Hwf.
  destruct (qsort_key_sorted (inter_kvs st) Hq (kv_wf_terminated _ Hwf))
    as [Hp Hs].
  pose proof (Forall_perm _ _ _ Hp Hwf) as Hwf'.
  repeat split; auto.
  unfold group_stage. cbn [sort_inter inter_kvs seq forallb].
  destruct (malloc_ok 0); cbn [andb]; [|reflexivity].
  rewrite group_loop_sorted by auto.
  now rewrite (Permutation_length (distinct_keys_perm _ _ Hp)).
Qed.

(** X10. The group-by-key stage, run on a buffer whose key fields hold a
    NUL and granted its allocations (the group array and one array of
    values per distinct key), sorts the buffer by the byte-wise
    lexicographic order of the keys and returns groups whose keys are
    strictly ascending in that order.  There are as many groups as distinct keys in the buffer, and
    the group of a key holds as many values as there are slots bearing the
    key: the values of these slots. *)
Theorem group_stage_correct (st : state) :
  qsort_spec qsort -> Forall kv_wf (inter_kvs st) ->
  forallb malloc_ok (seq 0 (S (length (distinct_keys (inter_kvs st))))) = true ->
  exists G a,
    group_stage st = Groups G a /\
    Permutation (inter_kvs st) (inter_kvs (sort_inter st)) /\
    StronglySorted key_le (inter_kvs (sort_inter st)) /\
    StronglySorted out_lt G /\
    length G = length (distinct_keys (inter_kvs st)) /\
    Forall (fun g =>
      let slots := pairs_with_key (c_str (out_key g)) (inter_kvs st) in
      In (c_str (out_key g)) (distinct_keys (inter_kvs st)) /\
      out_count g = Z.of_nat (length slots) /\
      length (out_value g) = length slots /\
      Permutation (out_value g)
                  (map (fun q => strncpy (value q) MAX_VALUE_SIZE) slots)) G.
Proof.
  intros Hq Hwf Hm.
  destruct (group_stage_groups st Hq Hwf) as (Hp & Hs & Hwf' & Hg).
  rewrite Hm in Hg.
  set (s := qsort (inter_kvs st)) in *.
  exists (map (group_of s) (distinct_keys s)), (S (length (distinct_keys (inter_kvs st)))).
  split; [exact Hg|]. split; [exact Hp|]. split; [exact Hs|].
  split; [|split].
  - apply (StronglySorted_map bytes_lt (fun g => c_str (out_key g))).
    rewrite group_keys by exact Hwf'. now apply distinct_keys_sorted.
  - rewrite length_map. symmetry. apply Permutation_length.
    now apply distinct_keys_perm.
  - rewrite Forall_map. apply Forall_forall. intros k Hk.
    rewrite (group_of_key s k Hwf' Hk). cbn [group_of out_count out_value].
    assert (Hpk : Permutation (pairs_with_key k s)
                              (pairs_with_key k (inter_kvs st))).
    { apply Permutation_filter. now symmetry. }
    split; [|split; [|split]].
    + eapply Permutation_in; [symmetry; apply distinct_keys_perm; exact Hp|].
      exact Hk.
    + now rewrite (Permutation_length Hpk).
    + now rewrite length_map, (Permutation_length Hpk).
    + now apply Permutation_map.
Qed.

(** ** The result packer *)

(** The copy loop completes iff every [malloc] of a value succeeds; it then
    yields one record per slot, in the order of the slots. *)
Lemma pack_loop_closed (l : list kv_pair_t) : forall a,
  pack_loop l a
  = if forallb malloc_ok (seq a (length l)) then Some (map record_of l)
    else None.
Proof.
  induction l as [|p r IH]; intros a; cbn [pack_loop length seq forallb map];
    [reflexivity|].
  destruct (malloc_ok a); cbn [andb]; [|reflexivity].
  rewrite IH. now destruct (forallb malloc_ok (seq (S a) (length r))).
Qed.

Lemma record_of_key (p : kv_pair_t) :
  kv_wf p -> c_str (out_key (record_of p)) = ckey p.
Proof.
  intros [Hlen Hnul]. cbn [record_of out_key]. unfold ckey.
  rewrite c_str_strncpy. apply firstn_all2.
  pose proof (c_str_terminated _ Hnul). lia.
Qed.

Lemma bytes_le_antisym (a b : list byte) : bytes_le a b -> bytes_le b a -> a = b.
Proof.
  rewrite !bytes_le_lt_or_eq. intros [H1|H1] [H2|H2]; auto.
  exfalso. apply (bytes_lt_irrefl a). eapply bytes_lt_trans; eauto.
Qed.

Lemma StronglySorted_nth_error {A : Type} (R : A -> A -> Prop) (l : list A) :
  StronglySorted R l ->
  forall i j x y, (i < j)%nat ->
    nth_error l i = Some x -> nth_error l j = Some y -> R x y.
Proof.
  induction 1 as [|a l _ IH Ha]; intros i j x y Hij Hx Hy.
  - destruct i; discriminate.
  - destruct j as [|j]; [lia|]. cbn in Hy. destruct i as [|i]; cbn in Hx.
    + inversion Hx; subst. rewrite Forall_forall in Ha.
      eapply Ha, nth_error_In; eauto.
    + eapply (IH i j); eauto. lia.
Qed.

(** In a sorted sequence the entries between two entries of one key bear
    that key. *)
Lemma sorted_equal_keys_adjacent (recs : list mr_out_kv) :
  StronglySorted out_le recs ->
  forall i m j ri rm rj, (i <= m <= j)%nat ->
    nth_error recs i = Some ri -> nth_error recs m = Some rm ->
    nth_error recs j = Some rj ->
    c_str (out_key ri) = c_str (out_key rj) ->
    c_str (out_key rm) = c_str (out_key ri).
Proof.
  intros Hs i m j ri rm rj [Him Hmj] Hi Hm Hj E.
  assert (H1 : out_le ri rm).
  { destruct (Nat.eq_dec i m) as [->|Hne].
    - rewrite Hi in Hm. inversion Hm; subst. unfold out_le.
      apply bytes_le_lt_or_eq. now right.
    - eapply (StronglySorted_nth_error _ _ Hs i m); eauto. lia. }
  assert (H2 : out_le rm rj).
  { destruct (Nat.eq_dec m j) as [->|Hne].
    - rewrite Hm in Hj. inversion Hj; subst. unfold out_le.
      apply bytes_le_lt_or_eq. now right.
    - eapply (StronglySorted_nth_error _ _ Hs m j); eauto. lia. }
  unfold out_le in *. rewrite <- E in H2. symmetry.
  now apply bytes_le_antisym.
Qed.

(** The packer on a final buffer of well-formed slots, granted its
    allocations. *)
Lemma pack_records (a : nat) (output : mr_output) (st : state) :
  qsort_spec qsort -> Forall kv_wf (final_kvs st) ->
  forallb malloc_ok (seq a (S (length (final_kvs st)))) = true ->
  exists recs,
    pack a output st
    = Returned 0 {| kv_lst := Some recs; count := final_count st |}
               (sort_final st) /\
    length recs = length (final_kvs st) /\
    Forall (fun r => out_count r = 1 /\ length (out_value r) = 1%nat) recs /\
    Permutation recs (map record_of (final_kvs st)) /\
    StronglySorted out_le recs /\
    (forall i m j ri rm rj, (i <= m <= j)%nat ->
       nth_error recs i = Some ri -> nth_error recs m = Some rm ->
       nth_error recs j = Some rj ->
       c_str (out_key ri) = c_str (out_key rj) ->
       c_str (out_key rm) = c_str (out_key ri)).
Proof.
  intros Hq Hwf Hm.
  destruct (qsort_key_sorted (final_kvs st) Hq (kv_wf_terminated _ Hwf))
    as [Hp Hs].
  pose proof (Forall_perm _ _ _ Hp Hwf) as Hwf'.
  cbn [seq forallb] in Hm. apply andb_prop in Hm. destruct Hm as [Ha Hm].
  set (s := qsort (final_kvs st)) in *.
  assert (Hsorted : StronglySorted out_le (map record_of s)).
  { apply (StronglySorted_map bytes_le (fun g => c_str (out_key g))).
    rewrite map_map.
    rewrite (map_ext_in _ ckey)
      by (intros p Hp'; apply record_of_key;
          rewrite Forall_forall in Hwf'; now apply Hwf').
    apply (StronglySorted_map bytes_le ckey s). exact Hs. }
  exists (map record_of s).
  split; [|split; [|split; [|split; [|split]]]].
  - assert (Hc : final_count (sort_final st) = final_count st).
    { unfold final_count. cbn [sort_final final_kvs]. f_equal.
      symmetry. now apply Permutation_length. }
    unfold pack. cbv zeta. rewrite Hc, Ha, pack_loop_closed.
    cbn [sort_final final_kvs]. fold s.
    now rewrite <- (Permutation_length Hp), Hm.
  - rewrite length_map. symmetry. now apply Permutation_length.
  - rewrite Forall_map. apply Forall_forall. intros p _. split; reflexivity.
  - apply Permutation_map. now symmetry.
  - exact Hsorted.
  - now apply sorted_equal_keys_adjacent.
Qed.

(** C2, as the code has it.  When the packing step is reached with a final
    buffer whose key fields hold a NUL and its [malloc] calls (the output
    array, one value per record) succeed, the output holds exactly one
    record per entry of the final buffer, each with one value and
    [count = 1], and [output->count] is the number of entries of the final
    buffer.  The records are the entries themselves, duplicate keys
    included: nothing is merged or dropped.  They are in non-decreasing
    byte-wise lexicographic order of their keys, so that records of one key
    are adjacent.  In particular a run of [mr_exec] with a non-empty
    intermediate buffer, callbacks whose keys fit and memory at hand
    returns 0 with the records of the final buffer as the reduce stage left
    it. *)
Theorem pack_correct :
  qsort_spec qsort ->
  (forall (a : nat) (output : mr_output) (st : state),
     Forall kv_wf (final_kvs st) ->
     forallb malloc_ok (seq a (S (length (final_kvs st)))) = true ->
     exists recs,
       pack a output st
       = Returned 0 {| kv_lst := Some recs; count := final_count st |}
                  (sort_final st) /\
       length recs = length (final_kvs st) /\
       Forall (fun r => out_count r = 1 /\ length (out_value r) = 1%nat) recs /\
       Permutation recs (map record_of (final_kvs st)) /\
       StronglySorted out_le recs /\
       (forall i m j ri rm rj, (i <= m <= j)%nat ->
          nth_error recs i = Some ri -> nth_error recs m = Some rm ->
          nth_error recs j = Some rj ->
          c_str (out_key ri) = c_str (out_key rj) ->
          c_str (out_key rm) = c_str (out_key ri))) /\
  (forall (input : list mr_in_kv) (map_fn : mr_in_kv -> cb) (mapper_count : Z)
          (reduce_fn : mr_out_kv -> cb) (reducer_count : Z)
          (output : mr_output) (sched_m sched_r : list nat) (st : state),
     (forall x, cb_keys_fit (map_fn x)) ->
     (forall g, cb_keys_fit (reduce_fn g)) ->
     (forall n, malloc_ok n = true) ->
     inter_kvs (map_stage input map_fn mapper_count sched_m (reset st)) <> [] ->
     exists groups a recs,
       group_stage (map_stage input map_fn mapper_count sched_m (reset st))
       = Groups groups a /\
       mr_exec input map_fn mapper_count reduce_fn reducer_count output
               sched_m sched_r st
       = Returned 0
           {| kv_lst := Some recs; count := Z.of_nat (length recs) |}
           (sort_final
              (reduce_stage groups reduce_fn reducer_count sched_r
                 (sort_inter
                    (map_stage input map_fn mapper_count sched_m (reset st))))) /\
       Forall (fun r => out_count r = 1 /\ length (out_value r) = 1%nat) recs /\
       Permutation recs
         (map record_of
            (final_kvs
               (reduce_stage groups reduce_fn reducer_count sched_r
                  (sort_inter
                     (map_stage input map_fn mapper_count sched_m
                                (reset st)))))) /\
       StronglySorted out_le recs).
Proof.
  intros Hq. split.
  - intros a output st Hwf Hm. now apply pack_records.
  - intros input map_fn mapper_count reduce_fn reducer_count output
           sched_m sched_r st Hmap Hred Hm Hne.
    unfold mr_exec.
    set (st1 := map_stage input map_fn mapper_count sched_m (reset st)) in *.
    assert (Hc : (inter_count st1 =? 0) = false).
    { apply Z.eqb_neq. unfold inter_count.
      destruct (inter_kvs st1); [contradiction | cbn; lia]. }
    rewrite Hc.
    assert (Hwf1 : Forall kv_wf (inter_kvs st1) /\ Forall kv_wf (final_kvs st1)).
    { unfold st1, map_stage. apply stage_wf; auto. }
    destruct Hwf1 as [Hi1 Hf1].
    destruct (group_stage_groups st1 Hq Hi1) as (_ & _ & Hi2 & Hg).
    replace (forallb malloc_ok _) with true in Hg
      by (symmetry; apply forallb_forall; intros n _; apply Hm).
    rewrite Hg.
    set (groups := map _ _) in *. set (a := S _) in *.
    set (st3 := reduce_stage groups reduce_fn reducer_count sched_r
                  (sort_inter st1)).
    assert (Hf3 : Forall kv_wf (final_kvs st3)).
    { unfold st3, reduce_stage. apply stage_wf; auto. }
    assert (Hm3 : forallb malloc_ok (seq a (S (length (final_kvs st3)))) = true)
      by (apply forallb_forall; intros n _; apply Hm).
    destruct (pack_records a output st3 Hq Hf3 Hm3)
      as (recs & Hp & Hlen & Hone & Hperm & Hs & _).
    exists groups, a, recs. split; [reflexivity|].
    split; [|split; [exact Hone | split; [exact Hperm | exact Hs]]].
    rewrite Hp. unfold final_count. now rewrite Hlen.
Qed.

(** ** C9: the intermediate buffer under interleaving *)

Section Interleaving.

Hypothesis realloc_always : forall n, realloc_ok n = true.

Lemma emit_i_ok (k v : list byte) (st : state) :
  fst (mr_emit_i k v st) = 0 /\
  inter_kvs (snd (mr_emit_i k v st)) = inter_kvs st ++ [slot_of k v].
Proof.
  unfold mr_emit_i. rewrite realloc_always.
  destruct (inter_cap st <=? inter_count st); split; reflexivity.
Qed.

Lemma emit_f_ok (k v : list byte) (st : state) :
  fst (mr_emit_f k v st) = 0 /\
  inter_kvs (snd (mr_emit_f k v st)) = inter_kvs st.
Proof.
  unfold mr_emit_f. rewrite realloc_always.
  destruct (final_cap st <=? final_count st); split; reflexivity.
Qed.

Lemma run_cb_inter (c : cb) : forall st,
  inter_kvs (run_cb c st) = inter_kvs st ++ inter_emits c.
Proof.
  induction c as [|k v next IH|k v next IH]; intros st;
    cbn [run_cb inter_emits].
  - now rewrite app_nil_r.
  - destruct (emit_i_ok k v st) as [Hr Hi].
    destruct (mr_emit_i k v st) as [r st']. cbn [fst snd] in *. subst r.
    rewrite IH, Hi, <- app_assoc. reflexivity.
  - destruct (emit_f_ok k v st) as [Hr Hi].
    destruct (mr_emit_f k v st) as [r st']. cbn [fst snd] in *. subst r.
    now rewrite IH, Hi.
Qed.

Context {A : Type}.
Variable fn : A -> cb.
Variable enter : A -> state -> state.
Hypothesis enter_inter : forall x st, inter_kvs (enter x st) = inter_kvs st.

Lemma run_items_inter (items : list A) : forall st,
  inter_kvs (run_items fn enter items st)
  = inter_kvs st ++ flat_map (fun x => inter_emits (fn x)) items.
Proof.
  induction items as [|x r IH]; intros st; cbn [run_items flat_map].
  - now rewrite app_nil_r.
  - now rewrite IH, run_cb_inter, enter_inter, app_assoc.
Qed.

(** A step moves at most one slot from what the thread has pending to the
    end of the buffer. *)
Lemma thread_step_inter (t : thread) (st : state) :
  inter_kvs (snd (thread_step fn enter t st))
    ++ pending_emits fn (fst (thread_step fn enter t st))
  = inter_kvs st ++ pending_emits fn t.
Proof.
  unfold thread_step, pending_emits.
  destruct (running t) as [|k v next|k v next] eqn:E; cbn [inter_emits].
  - destruct (todo t) as [|x r] eqn:Et; cbn [fst snd running todo].
    + now rewrite E, Et.
    + now rewrite enter_inter.
  - destruct (emit_i_ok k v st) as [Hr Hi].
    destruct (mr_emit_i k v st) as [r st']. cbn [fst snd running todo] in *.
    subst r. rewrite Hi, <- app_assoc. reflexivity.
  - destruct (emit_f_ok k v st) as [Hr Hi].
    destruct (mr_emit_f k v st) as [r st']. cbn [fst snd running todo] in *.
    subst r. now rewrite Hi.
Qed.

Lemma pool_step_perm (pool : list thread) : forall i st,
  Permutation
    (inter_kvs (snd (pool_step fn enter i pool st))
       ++ flat_map (pending_emits fn) (fst (pool_step fn enter i pool st)))
    (inter_kvs st ++ flat_map (pending_emits fn) pool).
Proof.
  induction pool as [|t rest IH]; intros i st; cbn [pool_step]; [reflexivity|].
  destruct i as [|i].
  - pose proof (thread_step_inter t st) as H.
    destruct (thread_step fn enter t st) as [t' st'].
    cbn [fst snd flat_map] in *. now rewrite !app_assoc, H.
  - specialize (IH i st).
    destruct (pool_step fn enter i rest st) as [rest' st'].
    cbn [fst snd flat_map] in *.
    rewrite (Permutation_app_swap_app (inter_kvs st')).
    rewrite (Permutation_app_swap_app (inter_kvs st)).
    now apply Permutation_app_head.
Qed.

Lemma run_schedule_perm (sched : list nat) : forall pool st,
  Permutation
    (inter_kvs (snd (run_schedule fn enter sched pool st))
       ++ flat_map (pending_emits fn)
                   (fst (run_schedule fn enter sched pool st)))
    (inter_kvs st ++ flat_map (pending_emits fn) pool).
Proof.
  induction sched as [|i s IH]; intros pool st; cbn [run_schedule];
    [reflexivity|].
  pose proof (pool_step_perm pool i st) as H.
  destruct (pool_step fn enter i pool st) as [pool' st'].
  cbn [fst snd] in H. now rewrite IH.
Qed.

Lemma join_all_inter (pool : list thread) : forall st,
  inter_kvs (join_all fn enter pool st)
  = inter_kvs st ++ flat_map (pending_emits fn) pool.
Proof.
  induction pool as [|t rest IH]; intros st; cbn [join_all flat_map].
  - now rewrite app_nil_r.
  - rewrite IH. unfold finish_thread, pending_emits.
    now rewrite run_items_inter, run_cb_inter, <- !app_assoc.
Qed.

Lemma pending_fresh (tasks : list (list A)) :
  flat_map (pending_emits fn) (map (mk_thread Ret) tasks)
  = flat_map (fun x => inter_emits (fn x)) (concat tasks).
Proof.
  induction tasks as [|task r IH]; cbn [map flat_map concat]; [reflexivity|].
  rewrite IH, flat_map_app. reflexivity.
Qed.

(** Whatever the number of workers and the schedule, a stage adds to the
    intermediate buffer the slots its callbacks emit, in some order. *)
Lemma stage_inter_perm (lst : list A) (workers : Z) (sched : list nat)
    (st : state) :
  Z.of_nat (length lst) < SIZE_MOD -> workers < SIZE_MOD ->
  Permutation (inter_kvs (stage fn enter lst workers sched st))
              (inter_kvs st ++ flat_map (fun x => inter_emits (fn x)) lst).
Proof.
  intros HN HW. unfold stage. destruct (Z.leb_spec workers 1) as [Hw|Hw].
  - now rewrite run_items_inter.
  - unfold fan_out.
    set (tasks := map (range_items lst) _).
    pose proof (run_schedule_perm sched (map (mk_thread Ret) tasks) st) as Hp.
    destruct (run_schedule fn enter sched _ st) as [pool st'].
    cbn [fst snd] in Hp. rewrite join_all_inter, Hp, pending_fresh.
    unfold tasks. rewrite slices_concat by lia. reflexivity.
Qed.

End Interleaving.

Lemma Forall2_map_same {A B : Type} (R : B -> B -> Prop) (f g : A -> B)
    (l : list A) :
  (forall x, In x l -> R (f x) (g x)) -> Forall2 R (map f l) (map g l).
Proof.
  induction l as [|x l IH]; intros H; cbn [map]; constructor.
  - apply H. now left.
  - apply IH. intros y Hy. apply H. now right.
Qed.

(** Sorted rearrangements of one multiset of well-formed slots have the same
    groups, up to the order of the values within a group. *)
Lemma groups_of_permutation (s1 s2 : list kv_pair_t) :
  Permutation s1 s2 ->
  StronglySorted key_le s1 -> StronglySorted key_le s2 ->
  same_groups (map (group_of s1) (distinct_keys s1))
              (map (group_of s2) (distinct_keys s2)).
Proof.
  intros Hp H1 H2.
  assert (E : distinct_keys s1 = distinct_keys s2).
  { apply strictly_sorted_unique; try now apply distinct_keys_sorted.
    intros k. split; apply Permutation_in;
      [|symmetry]; now apply distinct_keys_perm. }
  rewrite <- E. apply Forall2_map_same. intros k _.
  assert (Hpk : Permutation (pairs_with_key k s1) (pairs_with_key k s2))
    by now apply Permutation_filter.
  cbn [group_of out_key out_value out_count].
  split; [reflexivity|]. split.
  - now apply Permutation_map.
  - now rewrite (Permutation_length Hpk).
Qed.

(** The outcomes of the group stage on two buffers: the same keys in the
    same order, each with the same multiset of values, or no memory for
    either. *)
Lemma group_stage_permutation (stA stB : state) :
  qsort_spec qsort -> Forall kv_wf (inter_kvs stA) ->
  Permutation (inter_kvs stA) (inter_kvs stB) ->
  (group_stage stA = NoMemory /\ group_stage stB = NoMemory) \/
  (exists GA GB a,
     group_stage stA = Groups GA a /\ group_stage stB = Groups GB a /\
     same_groups GA GB).
Proof.
  intros Hq HwA Hp.
  pose proof (Forall_perm _ _ _ Hp HwA) as HwB.
  destruct (group_stage_groups stA Hq HwA) as (HpA & HsA & _ & HA).
  destruct (group_stage_groups stB Hq HwB) as (HpB & HsB & _ & HB).
  rewrite <- (Permutation_length (distinct_keys_perm _ _ Hp)) in HB.
  destruct (forallb malloc_ok _); [right | left; now split].
  do 3 eexists. split; [exact HA|]. split; [exact HB|].
  apply groups_of_permutation; auto.
  now rewrite <- HpA, <- HpB.
Qed.

(** C9, as the code has it.  Let the map function be a function of its
    record (its emissions are fixed by the record and the statuses it gets
    back), with keys that fit the key field, and let no emit call fail.  Then the map stage run with
    one mapper and the map stage run with [W > 1] mappers under any schedule
    leave the same multiset of intermediate pairs, and the group stage
    builds from the two buffers the same keys, in the same order, each with
    the same multiset of values (or, short of memory, gives up on both).
    More generally the groups built from two buffers that are
    rearrangements of one another agree in this way. *)
Theorem map_workers_same_groups
    (input : list mr_in_kv) (map_fn : mr_in_kv -> cb) (W : Z)
    (sched1 sched : list nat) (st : state) :
  qsort_spec qsort ->
  (forall n, realloc_ok n = true) ->
  (forall x, cb_keys_fit (map_fn x)) ->
  Z.of_nat (length input) < SIZE_MOD -> 1 < W < SIZE_MOD ->
  (Permutation (inter_kvs (map_stage input map_fn 1 sched1 (reset st)))
               (inter_kvs (map_stage input map_fn W sched (reset st))) /\
   ((group_stage (map_stage input map_fn 1 sched1 (reset st)) = NoMemory /\
     group_stage (map_stage input map_fn W sched (reset st)) = NoMemory) \/
    (exists G1 GW a,
       group_stage (map_stage input map_fn 1 sched1 (reset st)) = Groups G1 a /\
       group_stage (map_stage input map_fn W sched (reset st)) = Groups GW a /\
       same_groups G1 GW))) /\
  (forall stA stB,
     Forall kv_wf (inter_kvs stA) ->
     Permutation (inter_kvs stA) (inter_kvs stB) ->
     (group_stage stA = NoMemory /\ group_stage stB = NoMemory) \/
     (exists GA GB a,
        group_stage stA = Groups GA a /\ group_stage stB = Groups GB a /\
        same_groups GA GB)).
Proof.
  intros Hq Hr Hfit HN HW.
  split; [|intros stA stB; now apply group_stage_permutation].
  assert (Hp : Permutation
                 (inter_kvs (map_stage input map_fn 1 sched1 (reset st)))
                 (inter_kvs (map_stage input map_fn W sched (reset st)))).
  { unfold map_stage.
    rewrite (stage_inter_perm Hr map_fn no_note) by (auto; lia).
    rewrite (stage_inter_perm Hr map_fn no_note) by (auto; lia).
    reflexivity. }
  split; [exact Hp|]. apply group_stage_permutation; [exact Hq| |exact Hp].
  unfold map_stage. apply stage_wf; auto.
Qed.

(** ** Allocation failures in [mr_exec] *)

(** A failed [malloc] of the output array: [return -1], with the null
    pointer stored in [output->kv_lst]. *)
Lemma pack_output_array_fails (a : nat) (output : mr_output) (st : state) :
  malloc_ok a = false ->
  pack a output st
  = Returned (-1) {| kv_lst := None; count := count output |} (sort_final st).
Proof. intros H. unfold pack. now rewrite H. Qed.

(** A failed [malloc] of the value of an output record is not checked: the
    [strncpy] that follows writes through the null pointer. *)
Lemma pack_record_value_fails (a : nat) (output : mr_output) (st : state) :
  malloc_ok a = true ->
  forallb malloc_ok (seq (S a) (length (qsort (final_kvs st)))) = false ->
  pack a output st = Undefined.
Proof.
  intros Ha H. unfold pack. cbn [sort_final final_kvs].
  now rewrite Ha, pack_loop_closed, H.
Qed.


(** A failed [malloc] of the group array: [return -1], [output] untouched. *)
Lemma exec_group_array_fails
    (input : list mr_in_kv) (map_fn : mr_in_kv -> cb) (mapper_count : Z)
    (reduce_fn : mr_out_kv -> cb) (reducer_count : Z)
    (output : mr_output) (sched_m sched_r : list nat) (st : state) :
  malloc_ok 0 = false ->
  inter_kvs (map_stage input map_fn mapper_count sched_m (reset st)) <> [] ->
  mr_exec input map_fn mapper_count reduce_fn reducer_count output
          sched_m sched_r st
  = Returned (-1) output
      (sort_inter (map_stage input map_fn mapper_count sched_m (reset st))).
Proof.
  intros Hm Hne. unfold mr_exec, inter_count.
  destruct (inter_kvs (map_stage input map_fn mapper_count sched_m (reset st)))
    as [|p r] eqn:E; [contradiction|].
  cbn [length]. destruct (Z.eqb_spec (Z.of_nat (S (length r))) 0); [lia|].
  unfold group_stage. now rewrite Hm.
Qed.

(** A failed [malloc] of the group array or of the values of a group:
    [return -1]. *)
Lemma group_stage_no_memory (st : state) :
  qsort_spec qsort -> Forall kv_wf (inter_kvs st) ->
  forallb malloc_ok (seq 0 (S (length (distinct_keys (inter_kvs st))))) = false ->
  group_stage st = NoMemory.
Proof.
  intros Hq Hwf Hm. destruct (group_stage_groups st Hq Hwf) as (_ & _ & _ & Hg).
  now rewrite Hm in Hg.
Qed.

(** The status of a run, from the answers to its [malloc] calls: the group
    array, one array of values per group, the output array, one value per
    output record.  [K] is the number of distinct keys the map stage left
    and [F] the number of pairs the reduce stage left. *)
Lemma exec_status_by_malloc
    (input : list mr_in_kv) (map_fn : mr_in_kv -> cb) (mapper_count : Z)
    (reduce_fn : mr_out_kv -> cb) (reducer_count : Z)
    (output : mr_output) (sched_m sched_r : list nat) (st : state) :
  qsort_spec qsort ->
  (forall x, cb_keys_fit (map_fn x)) -> (forall g, cb_keys_fit (reduce_fn g)) ->
  let st1 := map_stage input map_fn mapper_count sched_m (reset st) in
  let s := qsort (inter_kvs st1) in
  let K := length (distinct_keys (inter_kvs st1)) in
  let F := length (final_kvs
                     (reduce_stage (map (group_of s) (distinct_keys s))
                        reduce_fn reducer_count sched_r (sort_inter st1))) in
  status_of (mr_exec input map_fn mapper_count reduce_fn reducer_count output
                     sched_m sched_r st)
  = if inter_count st1 =? 0 then Some 0
    else if negb (forallb malloc_ok (seq 0 (S K))) then Some (-1)
    else if negb (malloc_ok (S K)) then Some (-1)
    else if forallb malloc_ok (seq (S (S K)) F) then Some 0
    else None.
Proof.
  intros Hq Hmap Hred st1 s K F. unfold mr_exec. fold st1.
  destruct (inter_count st1 =? 0); [reflexivity|].
  assert (Hwf1 : Forall kv_wf (inter_kvs st1) /\ Forall kv_wf (final_kvs st1)).
  { unfold st1, map_stage. apply stage_wf; auto. }
  destruct Hwf1 as [Hi1 Hf1].
  destruct (group_stage_groups st1 Hq Hi1) as (_ & _ & Hi2 & Hg).
  fold s K in Hg. rewrite Hg.
  destruct (forallb malloc_ok (seq 0 (S K))); cbn [negb]; [|reflexivity].
  set (st3 := reduce_stage _ reduce_fn reducer_count sched_r (sort_inter st1))
    in *.
  assert (Hf3 : Forall kv_wf (final_kvs st3)).
  { unfold st3, reduce_stage. apply stage_wf; auto. }
  destruct (qsort_key_sorted _ Hq (kv_wf_terminated _ Hf3)) as [Hp _].
  unfold pack. cbn [sort_final final_kvs].
  destruct (malloc_ok (S K)); cbn [negb]; [|reflexivity].
  rewrite pack_loop_closed, <- (Permutation_length Hp). fold F.
  now destruct (forallb malloc_ok (seq (S (S K)) F)).
Qed.

(** ** C8: what becomes of a failed emission *)


(** * Further properties of the engine *)

(** ** The comparator *)

(** X3. On slots whose keys hold a NUL, [cmp_kv] is the comparison function
    [qsort] asks for: it always answers, it answers 0 exactly on equal key
    strings (on a slot and itself in particular), swapping the operands
    swaps the sign, and "not after" is transitive. *)
Theorem cmp_kv_consistent (a b c : kv_pair_t) :
  In NUL (key a) -> In NUL (key b) -> In NUL (key c) ->
  exists ab ba bc ac,
    cmp_kv a b = Some ab /\ cmp_kv b a = Some ba /\
    cmp_kv b c = Some bc /\ cmp_kv a c = Some ac /\
    cmp_kv a a = Some 0 /\
    (ab = 0 <-> ckey a = ckey b) /\
    (ab < 0 <-> 0 < ba) /\
    (ab <= 0 -> bc <= 0 -> ac <= 0).
Proof.
  intros Ha Hb Hc.
  destruct (cmp_kv_terminated a b Ha Hb) as (ab & Hab & Sab).
  destruct (cmp_kv_terminated b a Hb Ha) as (ba & Hba & Sba).
  destruct (cmp_kv_terminated b c Hb Hc) as (bc & Hbc & Sbc).
  destruct (cmp_kv_terminated a c Ha Hc) as (ac & Hac & Sac).
  destruct (cmp_kv_terminated a a Ha Ha) as (aa & Haa & Saa).
  rewrite bytes_compare_refl in Saa. apply Z.compare_eq_iff in Saa. subst aa.
  exists ab, ba, bc, ac.
  repeat (split; [assumption|]).
  split; [|split].
  - split.
    + intros ->. cbn in Sab. symmetry in Sab. now apply bytes_compare_eq.
    + intros E. rewrite E, bytes_compare_refl in Sab.
      now apply Z.compare_eq_iff in Sab.
  - rewrite (bytes_compare_antisym (ckey a) (ckey b)), <- Sab in Sba.
    revert Sba.
    destruct (Z.compare_spec ab 0); destruct (Z.compare_spec ba 0);
      cbn; intros Sba; try discriminate Sba; lia.
  - intros H1 H2.
    assert (L1 : bytes_le (ckey a) (ckey b))
      by (unfold bytes_le; rewrite <- Sab; exact H1).
    assert (L2 : bytes_le (ckey b) (ckey c))
      by (unfold bytes_le; rewrite <- Sbc; exact H2).
    pose proof (bytes_le_trans _ _ _ L1 L2) as L3.
    unfold bytes_le in L3. rewrite <- Sac in L3. exact L3.
Qed.

(** ** Fields copied again *)

Lemma strncpy_idem (n : nat) : forall s,
  strncpy (strncpy s n) n = strncpy s n.
Proof.
  induction n as [|n IH]; intros s; [reflexivity|].
  destruct s as [|b r]; [reflexivity|].
  cbn [strncpy]. destruct (is_nul b) eqn:E; [reflexivity|].
  cbn [strncpy]. rewrite E. now rewrite IH.
Qed.

(** X8. The packer hands out the pairs of [mr_emit_f] byte for byte: of a
    final buffer written by emit calls, when every [malloc] of a value
    succeeds, the copy loop makes the records whose key and single value
    are the fields as stored, that is the first [MAX_KEY_SIZE] characters
    of the key emitted and the first [MAX_VALUE_SIZE] characters of the
    value emitted (all of them when there are fewer). *)
Theorem emitted_pairs_packed_as_stored
    (kvs : list (list byte * list byte)) (a : nat) :
  forallb malloc_ok (seq a (length kvs)) = true ->
  exists recs,
    pack_loop (map (fun kv => slot_of (fst kv) (snd kv)) kvs) a = Some recs /\
    Forall2 (fun kv r =>
               out_key r = key (slot_of (fst kv) (snd kv)) /\
               out_value r = [value (slot_of (fst kv) (snd kv))] /\
               out_count r = 1 /\
               c_str (out_key r) = firstn MAX_KEY_SIZE (c_str (fst kv)) /\
               map c_str (out_value r)
               = [firstn MAX_VALUE_SIZE (c_str (snd kv))]) kvs recs.
Proof.
  intros Hm. rewrite pack_loop_closed, length_map, Hm.
  eexists. split; [reflexivity|].
  clear Hm. induction kvs as [|[k v] r IH]; cbn [map]; constructor; [|exact IH].
  cbn [record_of slot_of key value out_key out_value out_count fst snd map].
  rewrite !strncpy_idem, !c_str_strncpy. repeat split; reflexivity.
Qed.

(** ** The walk on any buffer *)

(** X4. The group walk on any buffer of terminated keys, sorted or not,
    with memory at hand: it builds at most as many groups as the buffer has
    slots (the size of the group array), every group holds at least one
    value and [count] is the number of its values, and the values of the
    groups put end to end are the values of the buffer in buffer order:
    every slot goes to exactly one group. *)
Theorem group_walk_keeps_every_value (fuel : nat) : forall l a,
  (length l <= fuel)%nat -> Forall (fun p => In NUL (key p)) l ->
  (forall n, malloc_ok n = true) ->
  exists G,
    group_loop fuel l a = Groups G (a + length G) /\
    (length G <= length l)%nat /\
    Forall (fun g => out_count g = Z.of_nat (length (out_value g)) /\
                     1 <= out_count g) G /\
    concat (map out_value G)
    = map (fun q => strncpy (value q) MAX_VALUE_SIZE) l.
Proof.
  induction fuel as [|fuel IH]; intros l a Hlen Hl Hm.
  - destruct l; [|cbn in Hlen; lia]. exists []. cbn.
    rewrite Nat.add_0_r. repeat split; auto.
  - destruct l as [|p r].
    { exists []. cbn. rewrite Nat.add_0_r. repeat split; auto. }
    inversion Hl as [|? ? Hp Hr]; subst.
    destruct (same_key_run_spec (key p) r Hp Hr) as (n & Hn & Hle & _).
    cbn [group_loop]. rewrite Hn, Hm. cbn [skipn].
    destruct (IH (skipn n r) (S a)) as (G & HG & HlenG & Hcnt & Hcat).
    { rewrite length_skipn. cbn in Hlen. lia. }
    { now apply Forall_skipn. }
    { exact Hm. }
    rewrite HG. eexists (_ :: G). split; [|split; [|split]].
    + cbn [length]. rewrite Nat.add_succ_r. reflexivity.
    + cbn [length]. rewrite length_skipn in HlenG. lia.
    + constructor; [|exact Hcnt]. cbn [out_count out_value].
      rewrite length_map. cbn [firstn length]. rewrite length_firstn.
      split; lia.
    + cbn [map concat out_value]. rewrite Hcat, <- map_app.
      cbn [firstn app]. now rewrite firstn_skipn.
Qed.

(** ** What [mr_exec] returns *)

(** X5. Whenever [mr_exec] returns, the status is 0 or -1.  With 0 the
    output is the null pointer with count 0, or an array of [count] records
    each of which has one value and [count = 1].  With -1 the caller's
    [output] is as it was before the call, or its [kv_lst] is the null
    pointer and its [count] is as before: a failed run never hands an array
    to the caller. *)
Theorem exec_result_shape
    (input : list mr_in_kv) (map_fn : mr_in_kv -> cb) (mapper_count : Z)
    (reduce_fn : mr_out_kv -> cb) (reducer_count : Z)
    (output : mr_output) (sched_m sched_r : list nat) (st : state) :
  match mr_exec input map_fn mapper_count reduce_fn reducer_count output
                sched_m sched_r st with
  | Undefined => True
  | Returned s out st' =>
      (s = 0 /\
       ((kv_lst out = None /\ count out = 0) \/
        exists recs, kv_lst out = Some recs /\
                     count out = Z.of_nat (length recs) /\
                     Forall (fun r => out_count r = 1 /\
                                      length (out_value r) = 1%nat) recs)) \/
      (s = -1 /\
       (out = output \/ (kv_lst out = None /\ count out = count output)))
  end.
Proof.
  unfold mr_exec.
  set (st1 := map_stage input map_fn mapper_count sched_m (reset st)).
  destruct (inter_count st1 =? 0).
  { left. split; [reflexivity|]. left. split; reflexivity. }
  destruct (group_stage st1) as [groups a| |]; [| |exact I].
  - unfold pack.
    set (st3 := sort_final _).
    destruct (malloc_ok a).
    + rewrite pack_loop_closed.
      destruct (forallb malloc_ok _); [|exact I].
      left. split; [reflexivity|]. right.
      eexists. split; [reflexivity|]. split.
      * cbn [count]. unfold final_count. now rewrite length_map.
      * rewrite Forall_map. apply Forall_forall. intros p _.
        split; reflexivity.
    + right. split; [reflexivity|]. right. split; reflexivity.
  - right. split; [reflexivity|]. now left.
Qed.

(** X9. A run whose reduce stage has emitted nothing reaches the packer
    with an empty final buffer, and [malloc] is asked for zero bytes: if it
    answers with a pointer, the result is status 0 with a non-null array of
    no record; if it answers with the null pointer, as it may, the result
    is status -1 although nothing failed. *)
Theorem pack_empty_final_buffer (a : nat) (output : mr_output) (st : state) :
  qsort_spec qsort -> final_kvs st = [] ->
  pack a output st
  = if malloc_ok a
    then Returned 0 {| kv_lst := Some []; count := 0 |} (sort_final st)
    else Returned (-1) {| kv_lst := None; count := count output |}
                  (sort_final st).
Proof.
  intros Hq He. unfold pack.
  assert (E : qsort [] = []).
  { destruct (Hq [] (Forall_nil _)) as [Hp _].
    now apply Permutation_nil in Hp. }
  unfold final_count. cbn [sort_final final_kvs]. rewrite He, E.
  destruct (malloc_ok a); reflexivity.
Qed.

(** ** Invocations of the reduce callback *)

Lemma emit_keeps_reduce_calls (k v : list byte) (st : state) :
  reduce_calls (snd (mr_emit_i k v st)) = reduce_calls st /\
  reduce_calls (snd (mr_emit_f k v st)) = reduce_calls st.
Proof.
  unfold mr_emit_i, mr_emit_f. split.
  - destruct (inter_cap st <=? inter_count st);
      [destruct (realloc_ok (reallocs st))|]; reflexivity.
  - destruct (final_cap st <=? final_count st);
      [destruct (realloc_ok (reallocs st))|]; reflexivity.
Qed.

Lemma run_cb_reduce_calls (c : cb) : forall st,
  reduce_calls (run_cb c st) = reduce_calls st.
Proof.
  induction c as [|k v next IH|k v next IH]; intros st; cbn [run_cb].
  - reflexivity.
  - pose proof (proj1 (emit_keeps_reduce_calls k v st)) as H.
    destruct (mr_emit_i k v st) as [r st']. cbn [snd] in H.
    now rewrite IH.
  - pose proof (proj2 (emit_keeps_reduce_calls k v st)) as H.
    destruct (mr_emit_f k v st) as [r st']. cbn [snd] in H.
    now rewrite IH.
Qed.

Section ReduceLog.

Variable reduce_fn : mr_out_kv -> cb.

Lemma run_items_reduce_calls (items : list mr_out_kv) : forall st,
  reduce_calls (run_items reduce_fn note_reduce items st)
  = reduce_calls st ++ items.
Proof.
  induction items as [|x r IH]; intros st; cbn [run_items].
  - now rewrite app_nil_r.
  - rewrite IH, run_cb_reduce_calls. cbn [note_reduce reduce_calls].
    now rewrite <- app_assoc.
Qed.

Lemma thread_step_reduce_calls (t : thread) (st : state) :
  reduce_calls (snd (thread_step reduce_fn note_reduce t st))
    ++ todo (fst (thread_step reduce_fn note_reduce t st))
  = reduce_calls st ++ todo t.
Proof.
  unfold thread_step.
  destruct (running t) as [|k v next|k v next].
  - destruct (todo t) as [|x r] eqn:E;
      cbn [fst snd todo note_reduce reduce_calls].
    + now rewrite E.
    + now rewrite <- app_assoc.
  - pose proof (proj1 (emit_keeps_reduce_calls k v st)) as H.
    destruct (mr_emit_i k v st) as [r st']. cbn [fst snd todo] in *.
    now rewrite H.
  - pose proof (proj2 (emit_keeps_reduce_calls k v st)) as H.
    destruct (mr_emit_f k v st) as [r st']. cbn [fst snd todo] in *.
    now rewrite H.
Qed.

Lemma pool_step_reduce_calls (pool : list thread) : forall i st,
  Permutation
    (reduce_calls (snd (pool_step reduce_fn note_reduce i pool st))
       ++ flat_map todo (fst (pool_step reduce_fn note_reduce i pool st)))
    (reduce_calls st ++ flat_map todo pool).
Proof.
  induction pool as [|t rest IH]; intros i st; cbn [pool_step]; [reflexivity|].
  destruct i as [|i].
  - pose proof (thread_step_reduce_calls t st) as H.
    destruct (thread_step reduce_fn note_reduce t st) as [t' st'].
    cbn [fst snd flat_map] in *. now rewrite !app_assoc, H.
  - specialize (IH i st).
    destruct (pool_step reduce_fn note_reduce i rest st) as [rest' st'].
    cbn [fst snd flat_map] in *.
    rewrite (Permutation_app_swap_app (reduce_calls st')).
    rewrite (Permutation_app_swap_app (reduce_calls st)).
    now apply Permutation_app_head.
Qed.

Lemma run_schedule_reduce_calls (sched : list nat) : forall pool st,
  Permutation
    (reduce_calls (snd (run_schedule reduce_fn note_reduce sched pool st))
       ++ flat_map todo
            (fst (run_schedule reduce_fn note_reduce sched pool st)))
    (reduce_calls st ++ flat_map todo pool).
Proof.
  induction sched as [|i s IH]; intros pool st; cbn [run_schedule];
    [reflexivity|].
  pose proof (pool_step_reduce_calls pool i st) as H.
  destruct (pool_step reduce_fn note_reduce i pool st) as [pool' st'].
  cbn [fst snd] in H. now rewrite IH.
Qed.

Lemma join_all_reduce_calls (pool : list thread) : forall st,
  reduce_calls (join_all reduce_fn note_reduce pool st)
  = reduce_calls st ++ flat_map todo pool.
Proof.
  induction pool as [|t rest IH]; intros st; cbn [join_all flat_map].
  - now rewrite app_nil_r.
  - rewrite IH. unfold finish_thread.
    now rewrite run_items_reduce_calls, run_cb_reduce_calls, <- app_assoc.
Qed.

Lemma todo_fresh (tasks : list (list mr_out_kv)) :
  flat_map todo (map (mk_thread Ret) tasks) = concat tasks.
Proof.
  induction tasks as [|task r IH]; cbn [map flat_map concat todo];
    [reflexivity | now rewrite IH].
Qed.

(** X1. The reduce stage hands every group to the reduce callback exactly
    once, whatever the number of reducers and the schedule, and whatever the
    callbacks emit and the allocator answers: the groups logged are the
    groups of the stage, in some order, and in the order of the groups when
    there is at most one reducer. *)
Theorem reduce_stage_calls_each_group_once
    (groups : list mr_out_kv) (reducer_count : Z) (sched : list nat)
    (st : state) :
  Z.of_nat (length groups) < SIZE_MOD -> reducer_count < SIZE_MOD ->
  Permutation
    (reduce_calls (reduce_stage groups reduce_fn reducer_count sched st))
    (reduce_calls st ++ groups) /\
  (reducer_count <= 1 ->
   reduce_calls (reduce_stage groups reduce_fn reducer_count sched st)
   = reduce_calls st ++ groups).
Proof.
  intros HN HW. unfold reduce_stage, stage.
  destruct (Z.leb_spec reducer_count 1) as [Hw|Hw].
  - rewrite run_items_reduce_calls. split; [reflexivity | now intros _].
  - split; [|lia]. unfold fan_out.
    set (tasks := map (range_items groups) _).
    pose proof (run_schedule_reduce_calls sched (map (mk_thread Ret) tasks) st)
      as Hp.
    destruct (run_schedule reduce_fn note_reduce sched _ st) as [pool st'].
    cbn [fst snd] in Hp. rewrite join_all_reduce_calls, Hp, todo_fresh.
    unfold tasks. rewrite slices_concat by lia. reflexivity.
Qed.

End ReduceLog.

(** ** Threads that run in turn *)

Section InTurn.

Context {A : Type}.
Variable fn : A -> cb.
Variable enter : A -> state -> state.

Lemma run_items_app (l1 l2 : list A) : forall st,
  run_items fn enter (l1 ++ l2) st
  = run_items fn enter l2 (run_items fn enter l1 st).
Proof.
  induction l1 as [|x r IH]; intros st; cbn [app run_items];
    [reflexivity | now rewrite IH].
Qed.

Lemma join_all_fresh (tasks : list (list A)) : forall st,
  join_all fn enter (map (mk_thread Ret) tasks) st
  = run_items fn enter (concat tasks) st.
Proof.
  induction tasks as [|task r IH]; intros st; cbn [map join_all concat];
    [reflexivity|].
  rewrite IH, run_items_app. reflexivity.
Qed.

(** A step of a thread does part of what the join would have it do. *)
Lemma finish_after_step (t : @thread A) (st : state) :
  finish_thread fn enter (fst (thread_step fn enter t st))
                (snd (thread_step fn enter t st))
  = finish_thread fn enter t st.
Proof.
  unfold thread_step, finish_thread. destruct t as [c items]. cbn [running todo].
  destruct c as [|k v next|k v next].
  - destruct items as [|x r]; reflexivity.
  - cbn [run_cb]. destruct (mr_emit_i k v st). reflexivity.
  - cbn [run_cb]. destruct (mr_emit_f k v st). reflexivity.
Qed.

Lemma finish_is_idle (t : @thread A) (st : state) :
  is_idle t = true -> finish_thread fn enter t st = st.
Proof.
  unfold is_idle, finish_thread. destruct t as [c items]. cbn [running todo].
  destruct c; [destruct items|..]; intros H; try discriminate H. reflexivity.
Qed.

(** A step of a thread taken in its turn changes nothing to what the join
    leaves. *)
Lemma pool_step_in_turn (pool : list (@thread A)) : forall i st,
  forallb is_idle (firstn i pool) = true ->
  join_all fn enter (fst (pool_step fn enter i pool st))
           (snd (pool_step fn enter i pool st))
  = join_all fn enter pool st.
Proof.
  induction pool as [|t rest IH]; intros i st Hi; [reflexivity|].
  destruct i as [|i]; cbn [pool_step].
  - pose proof (finish_after_step t st) as E.
    destruct (thread_step fn enter t st) as [t' st']. cbn [fst snd] in *.
    cbn [join_all]. now rewrite E.
  - cbn [firstn forallb] in Hi. apply andb_prop in Hi. destruct Hi as [Ht Hi].
    specialize (IH i st Hi).
    destruct (pool_step fn enter i rest st) as [rest' st']. cbn [fst snd] in *.
    cbn [join_all]. now rewrite !finish_is_idle.
Qed.

Lemma run_schedule_in_turn (sched : list nat) : forall pool st,
  in_turn fn enter sched pool st = true ->
  join_all fn enter (fst (run_schedule fn enter sched pool st))
           (snd (run_schedule fn enter sched pool st))
  = join_all fn enter pool st.
Proof.
  induction sched as [|i s IH]; intros pool st H; [reflexivity|].
  cbn [in_turn run_schedule] in *. apply andb_prop in H. destruct H as [Hi H].
  pose proof (pool_step_in_turn pool i st Hi) as E.
  destruct (pool_step fn enter i pool st) as [pool' st']. cbn [fst snd] in E.
  now rewrite IH.
Qed.

(** X6. When the scheduler runs the threads of a stage in turn, in the
    order of their slices (it never picks a thread while a thread of a
    lower index has work left; the remaining work is done at the join, in
    the same order), the stage leaves exactly the globals that the
    sequential loop over the items leaves: the same buffers in the same
    order, the same capacities and counters. *)
Theorem stage_in_turn_is_sequential
    (lst : list A) (workers : Z) (sched : list nat) (st : state) :
  Z.of_nat (length lst) < SIZE_MOD -> 0 < workers < SIZE_MOD ->
  in_turn fn enter sched
    (map (mk_thread Ret)
         (map (range_items lst) (slices (Z.of_nat (length lst)) workers))) st
  = true ->
  stage fn enter lst workers sched st = run_items fn enter lst st.
Proof.
  intros HN HW Hs. unfold stage. destruct (workers <=? 1); [reflexivity|].
  unfold fan_out.
  pose proof (run_schedule_in_turn sched _ st Hs) as E.
  destruct (run_schedule fn enter sched _ st) as [pool st']. cbn [fst snd] in E.
  rewrite E, join_all_fresh, slices_concat by lia. reflexivity.
Qed.

End InTurn.

(** ** The buffers through a stage *)

Lemma emit_capacity (k v : list byte) (st : state) :
  within_capacity st ->
  (within_capacity (snd (mr_emit_i k v st)) /\
   inter_cap st <= inter_cap (snd (mr_emit_i k v st)) /\
   final_cap st <= final_cap (snd (mr_emit_i k v st))) /\
  (within_capacity (snd (mr_emit_f k v st)) /\
   inter_cap st <= inter_cap (snd (mr_emit_f k v st)) /\
   final_cap st <= final_cap (snd (mr_emit_f k v st))).
Proof.
  unfold within_capacity, mr_emit_i, mr_emit_f, inter_count, final_count.
  intros (H1 & H2 & H3 & H4). split.
  - destruct (Z.leb_spec (inter_cap st) (Z.of_nat (length (inter_kvs st))));
      [destruct (realloc_ok (reallocs st))|]; cbn;
      rewrite ?length_app; cbn; unfold INITIAL_CAP;
      destruct (Z.eqb_spec (inter_cap st) 0); lia.
  - destruct (Z.leb_spec (final_cap st) (Z.of_nat (length (final_kvs st))));
      [destruct (realloc_ok (reallocs st))|]; cbn;
      rewrite ?length_app; cbn; unfold INITIAL_CAP;
      destruct (Z.eqb_spec (final_cap st) 0); lia.
Qed.

(** X2. Through a map stage and through a reduce stage, whatever the
    callbacks emit, the allocator answers and the scheduler picks, both
    buffers stay within the capacity of their arrays (every slot written
    lies in the array), and no capacity ever shrinks. *)
Theorem stages_stay_within_capacity
    (input : list mr_in_kv) (map_fn : mr_in_kv -> cb)
    (groups : list mr_out_kv) (reduce_fn : mr_out_kv -> cb)
    (workers : Z) (sched : list nat) (st : state) :
  within_capacity st ->
  (within_capacity (map_stage input map_fn workers sched st) /\
   inter_cap st <= inter_cap (map_stage input map_fn workers sched st) /\
   final_cap st <= final_cap (map_stage input map_fn workers sched st)) /\
  (within_capacity (reduce_stage groups reduce_fn workers sched st) /\
   inter_cap st <= inter_cap (reduce_stage groups reduce_fn workers sched st) /\
   final_cap st <= final_cap (reduce_stage groups reduce_fn workers sched st)).
Proof.
  intros Hst.
  assert (Hstep_i : forall k v (next : Z -> cb) s, True ->
            within_capacity s /\ inter_cap st <= inter_cap s /\
            final_cap st <= final_cap s ->
            within_capacity (snd (mr_emit_i k v s)) /\
            inter_cap st <= inter_cap (snd (mr_emit_i k v s)) /\
            final_cap st <= final_cap (snd (mr_emit_i k v s))).
  { intros k v _ s _ (Hw & Hi & Hf).
    destruct (emit_capacity k v s Hw) as [(H1 & H2 & H3) _].
    repeat split; try apply H1; lia. }
  assert (Hstep_f : forall k v (next : Z -> cb) s, True ->
            within_capacity s /\ inter_cap st <= inter_cap s /\
            final_cap st <= final_cap s ->
            within_capacity (snd (mr_emit_f k v s)) /\
            inter_cap st <= inter_cap (snd (mr_emit_f k v s)) /\
            final_cap st <= final_cap (snd (mr_emit_f k v s))).
  { intros k v _ s _ (Hw & Hi & Hf).
    destruct (emit_capacity k v s Hw) as [_ (H1 & H2 & H3)].
    repeat split; try apply H1; lia. }
  split.
  - unfold map_stage.
    apply (stage_inv
             (fun s => within_capacity s /\ inter_cap st <= inter_cap s /\
                       final_cap st <= final_cap s) (fun _ => True)); auto.
    repeat split; try apply Hst; lia.
  - unfold reduce_stage.
    apply (stage_inv
             (fun s => within_capacity s /\ inter_cap st <= inter_cap s /\
                       final_cap st <= final_cap s) (fun _ => True)); auto.
    repeat split; try apply Hst; lia.
Qed.

(** ** What the map stage leaves in the intermediate buffer *)

(** X7. When no [realloc] fails, the map stage run from empty buffers
    stores exactly the pairs that the map function emits for the records of
    the input, none lost and none twice, and no emit call reports failure:
    in the order of the input when there is at most one mapper, in some
    order otherwise. *)
Theorem map_stage_stores_every_emission
    (input : list mr_in_kv) (map_fn : mr_in_kv -> cb) (mapper_count : Z)
    (sched : list nat) (st : state) :
  (forall n, realloc_ok n = true) ->
  Z.of_nat (length input) < SIZE_MOD -> mapper_count < SIZE_MOD ->
  Permutation
    (inter_kvs (map_stage input map_fn mapper_count sched (reset st)))
    (flat_map (fun x => inter_emits (map_fn x)) input) /\
  (mapper_count <= 1 ->
   inter_kvs (map_stage input map_fn mapper_count sched (reset st))
   = flat_map (fun x => inter_emits (map_fn x)) input) /\
  emit_failures (map_stage input map_fn mapper_count sched (reset st))
  = emit_failures st.
Proof.
  intros Hr HN HW. split; [|split].
  - unfold map_stage.
    now rewrite (stage_inter_perm Hr map_fn no_note) by (auto; lia).
  - intros Hw. unfold map_stage, stage.
    destruct (Z.leb_spec mapper_count 1); [|lia].
    now rewrite (run_items_inter Hr map_fn no_note) by auto.
  - unfold map_stage.
    apply (stage_inv (fun s => emit_failures s = emit_failures st)
                     (fun _ => True)); auto.
    + intros k v _ s _ H. unfold mr_emit_i. rewrite Hr.
      destruct (inter_cap s <=? inter_count s); exact H.
    + intros k v _ s _ H. unfold mr_emit_f. rewrite Hr.
      destruct (final_cap s <=? final_count s); exact H.
Qed.

End Engine.

(** * A concrete [qsort] *)

Lemma cmp_leb_key_le (p q : kv_pair_t) :
  In NUL (key p) -> In NUL (key q) -> (cmp_leb p q = true <-> key_le p q).
Proof.
  intros Hp Hq. rewrite <- (kv_le_key_le p q Hp Hq).
  destruct (cmp_kv_terminated p q Hp Hq) as (z & Hz & _).
  unfold cmp_leb, kv_le. rewrite Hz. split.
  - intros H. exists z. split; [reflexivity | now apply Z.leb_le].
  - intros (z' & E & Hle). inversion E; subst. now apply Z.leb_le.
Qed.

Lemma insert_kv_perm (p : kv_pair_t) (l : list kv_pair_t) :
  Permutation (p :: l) (insert_kv p l).
Proof.
  induction l as [|q r IH]; cbn [insert_kv]; [reflexivity|].
  destruct (cmp_leb p q); [reflexivity|].
  rewrite perm_swap. now constructor.
Qed.

Lemma isort_perm (l : list kv_pair_t) : Permutation l (isort l).
Proof.
  induction l as [|p r IH]; cbn [isort]; [reflexivity|].
  rewrite <- insert_kv_perm. now constructor.
Qed.

Lemma insert_kv_sorted (p : kv_pair_t) (l : list kv_pair_t) :
  In NUL (key p) -> Forall (fun q => In NUL (key q)) l ->
  StronglySorted key_le l -> StronglySorted key_le (insert_kv p l).
Proof.
  intros Hp. induction 1 as [|q r Hq Hr IH]; intros Hs; cbn [insert_kv].
  - repeat constructor.
  - apply StronglySorted_inv in Hs. destruct Hs as [Hs Hqr].
    destruct (cmp_leb p q) eqn:E.
    + apply cmp_leb_key_le in E; auto.
      constructor; [now constructor|].
      constructor; [exact E|].
      eapply Forall_impl; [|exact Hqr]. intros y Hy.
      eapply bytes_le_trans; eauto.
    + assert (Hqp : key_le q p).
      { destruct (bytes_le_total (ckey p) (ckey q)) as [H|H]; [|exact H].
        apply cmp_leb_key_le in H; auto. congruence. }
      constructor; [now apply IH|].
      eapply Forall_perm; [apply insert_kv_perm|].
      now constructor.
Qed.

Lemma isort_sorted (l : list kv_pair_t) :
  Forall (fun q => In NUL (key q)) l -> StronglySorted key_le (isort l).
Proof.
  induction 1 as [|p r Hp Hr IH]; cbn [isort]; [constructor|].
  apply insert_kv_sorted; auto.
  eapply Forall_perm; [apply isort_perm | exact Hr].
Qed.

(** Insertion sort with [cmp_kv] is a [qsort]. *)
Lemma isort_spec : qsort_spec isort.
Proof.
  intros l Hl. split; [apply isort_perm|].
  pose proof (Forall_perm _ _ _ (isort_perm l) Hl) as Hl'.
  rewrite Forall_forall in Hl'.
  eapply StronglySorted_impl_in; [|now apply isort_sorted].
  intros x y Hx Hy. apply kv_le_key_le; auto.
Qed.

(** * The engine at work: [MAX_KEY_SIZE = MAX_VALUE_SIZE = 8] *)

Lemma clip7_fits (k : list byte) : (length (c_str (clip7 k)) < 8)%nat.
Proof.
  unfold clip7. pose proof (c_str_length (firstn 7 (c_str k))) as H.
  rewrite length_firstn in H. lia.
Qed.

Lemma map_identity_fits (r : in_rec) : cb_keys_fit 8 (map_identity r).
Proof.
  unfold map_identity. cbn [emit_all_i]. destruct r as [k v].
  constructor; [apply clip7_fits | intros _; constructor].
Qed.

Lemma reduce_concat_fits (g : mr_out_kv) : cb_keys_fit 8 (reduce_concat g).
Proof.
  unfold reduce_concat. cbn [emit_all_f].
  constructor; [apply clip7_fits | intros _; constructor].
Qed.

Lemma st_ab_wf :
  Forall (kv_wf 8) (inter_kvs st_ab) /\ Forall (kv_wf 8) (final_kvs st_ab).
Proof.
  split; repeat (apply Forall_cons; [split; [reflexivity | cbn; auto] |]);
    apply Forall_nil.
Qed.

Lemma always_true (n : nat) : always n = true.
Proof. reflexivity. Qed.

(** The group stage on the pairs (a,1), (b,2), (a,3). *)
Lemma group_stage_correct_witness :
  exists G a,
    group_stage 8 8 always isort st_ab = Groups G a /\
    StronglySorted out_lt G /\
    length G = length (distinct_keys (inter_kvs st_ab)) /\
    Forall (fun g =>
      out_count g
      = Z.of_nat (length (pairs_with_key (c_str (out_key g))
                                         (inter_kvs st_ab)))) G.
Proof.
  destruct (group_stage_correct 8 8 always isort st_ab isort_spec
              (proj1 st_ab_wf) eq_refl)
    as (G & a & H1 & _ & _ & H2 & H3 & H4).
  exists G, a. repeat split; auto.
  eapply Forall_impl; [|exact H4]. intros g Hg. apply Hg.
Defined.

(** The packer on the final pairs (b,x), (a,y), (b,z), and the run over
    (a,1), (b,2), (a,3). *)
Lemma pack_correct_witness :
  (exists recs,
     pack 8 8 always isort 3 out0 st_ab
     = Returned 0 {| kv_lst := Some recs; count := 3 |}
                (sort_final isort st_ab) /\
     length recs = 3%nat /\
     Permutation recs (map (record_of 8 8) (final_kvs st_ab)) /\
     StronglySorted out_le recs) /\
  (exists recs,
     status_of (mr_exec 8 8 in_rec always always isort input_ab map_identity 2
                        reduce_concat 2 out0 [1; 0]%nat [1]%nat st0) = Some 0 /\
     option_map kv_lst
       (output_of (mr_exec 8 8 in_rec always always isort input_ab
                     map_identity 2 reduce_concat 2 out0 [1; 0]%nat [1]%nat st0))
     = Some (Some recs) /\
     StronglySorted out_le recs).
Proof.
  destruct (pack_correct 8 8 in_rec always always isort isort_spec) as [H H'].
  split.
  - destruct (H 3%nat out0 st_ab (proj2 st_ab_wf) eq_refl)
      as (recs & H1 & H2 & _ & H3 & H4 & _).
    exists recs. repeat split; auto.
  - destruct (H' input_ab map_identity 2 reduce_concat 2 out0 [1; 0]%nat
                 [1]%nat st0 map_identity_fits reduce_concat_fits always_true)
      as (groups & a & recs & _ & He & _ & _ & Hs).
    + vm_compute. discriminate.
    + exists recs. rewrite He. repeat split; auto.
Defined.

(** Ten items for three workers: ranges of 4, 3 and 3 items. *)
Lemma slices_partition_witness :
  length (slices 10 3) = 3%nat /\ chained 0 (slices 10 3) 10 /\
  nth 0 (slices 10 3) (0, 0) = (0, 4) /\
  concat (map (range_items (seq 0 10)) (slices 10 3)) = seq 0 10.
Proof.
  assert (H10 : 0 <= 10 < SIZE_MOD) by (unfold SIZE_MOD; lia).
  assert (H3 : 2 <= 3 < SIZE_MOD) by (unfold SIZE_MOD; lia).
  destruct (slices_partition 8 8 always 10 3 H10 H3)
    as (L & C & N & _ & K & _).
  split; [exact L|]. split; [exact C|].
  split; [exact (proj1 (N 0 ltac:(lia)))|].
  apply K. reflexivity.
Defined.

(** An emit call on a full buffer of 1024 slots when [realloc] fails, and an
    emit call of a key of twelve characters after three stored pairs. *)
Lemma emit_appends_or_fails_witness :
  (fst (mr_emit_i 8 8 never (bytes "k") (bytes "v") st_full) = -1 /\
   inter_kvs (snd (mr_emit_i 8 8 never (bytes "k") (bytes "v") st_full))
   = repeat (slot8 "a" "1") 1024 /\
   inter_cap (snd (mr_emit_i 8 8 never (bytes "k") (bytes "v") st_full))
   = 1024) /\
  (fst (mr_emit_f 8 8 always (bytes "averylongkey") (bytes "v") st_ab) = 0 /\
   map (fun p => (c_str (key p), c_str (value p)))
       (final_kvs (snd (mr_emit_f 8 8 always (bytes "averylongkey") (bytes "v")
                                  st_ab)))
   = [(bytes "b", bytes "x"); (bytes "a", bytes "y"); (bytes "b", bytes "z");
      (bytes "averylon", bytes "v")] /\
   final_cap (snd (mr_emit_f 8 8 always (bytes "averylongkey") (bytes "v")
                             st_ab)) = 1024).
Proof.
  destruct (emit_appends_or_fails 8 8 never (bytes "k") (bytes "v") st_full)
    as [[Hfail _] _].
  destruct (emit_appends_or_fails 8 8 always (bytes "averylongkey") (bytes "v")
              st_ab) as [_ [_ Hok]].
  split.
  - destruct Hfail as (H1 & H2 & _ & H3 & _).
    + split; [|reflexivity]. unfold inter_count. cbn [st_full inter_kvs inter_cap].
      rewrite repeat_length. lia.
    + split; [exact H1 | split; [exact H2 | exact H3]].
  - destruct Hok as (H1 & _ & H2 & _ & H3 & _);
      [intros [_ H]; discriminate H|].
    split; [exact H1 | split; [exact H2 | exact H3]].
Defined.

(** A run whose map function emits nothing, and which has no memory for a
    group array. *)
Lemma exec_no_intermediate_pairs_witness :
  exists out st',
    mr_exec 8 8 in_rec always never isort input_ab map_nothing 2
            reduce_concat 2 out0 [1; 0]%nat [] st0
    = Returned 0 out st' /\
    count out = 0 /\ reduce_calls st' = [].
Proof.
  destruct (exec_no_intermediate_pairs 8 8 in_rec always never isort
              map_nothing 2 reduce_concat 2 out0 [1; 0]%nat [] st0)
    as [H _].
  destruct (H input_ab eq_refl) as (out & st' & H1 & H2 & _ & H3).
  exists out, st'. repeat split; auto.
Defined.

(** A run all of whose emit calls fail leaves the intermediate buffer
    empty. *)
Lemma exec_no_pairs_null_output_witness :
  exists st',
    mr_exec 8 8 in_rec never always isort input_ab map_identity 1
            reduce_concat 1 out0 [] [] st0
    = Returned 0 {| kv_lst := None; count := 0 |} st'.
Proof.
  apply (exec_no_pairs_null_output 8 8 in_rec never always isort input_ab
           map_identity 1 reduce_concat 1 out0 [] [] st0).
  reflexivity.
Defined.

(** One mapper against two mappers interleaved. *)
Lemma map_workers_same_groups_witness :
  Permutation
    (inter_kvs (map_stage 8 8 in_rec always input_ab map_identity 1 []
                  (reset st_ab)))
    (inter_kvs (map_stage 8 8 in_rec always input_ab map_identity 2
                  [1; 0; 1; 1; 0]%nat (reset st_ab))) /\
  exists G1 GW a,
    group_stage 8 8 always isort
      (map_stage 8 8 in_rec always input_ab map_identity 1 []
         (reset st_ab)) = Groups G1 a /\
    group_stage 8 8 always isort
      (map_stage 8 8 in_rec always input_ab map_identity 2 [1; 0; 1; 1; 0]%nat
         (reset st_ab)) = Groups GW a /\
    same_groups G1 GW.
Proof.
  assert (HN : Z.of_nat (length input_ab) < SIZE_MOD)
    by (unfold SIZE_MOD; cbn; lia).
  assert (HW : 1 < 2 < SIZE_MOD) by (unfold SIZE_MOD; lia).
  destruct (map_workers_same_groups 8 8 in_rec always always isort input_ab
              map_identity 2 [] [1; 0; 1; 1; 0]%nat st_ab isort_spec
              always_true map_identity_fits HN HW)
    as [[Hp [[H _]|H]] _].
  - discriminate H.
  - split; [exact Hp | exact H].
Defined.



(** C4, at the key of the specification's example and a key field of eight
    bytes.  The emit call succeeds; the key it has stored is "averylon",
    eight characters without a NUL, where the claim has "averylo" and a
    NUL; [cmp_kv] on the stored slot reads past the key field. *)
Theorem emit_long_key_unterminated :
  fst (mr_emit_i 8 8 always (bytes "averylongkey") (bytes "v") st0) = 0 /\
  map key (inter_kvs (snd (mr_emit_i 8 8 always (bytes "averylongkey")
                                     (bytes "v") st0)))
  = [bytes "averylon"] /\
  ~ In NUL (bytes "averylon") /\
  bytes "averylon" <> bytes "averylo" ++ [NUL] /\
  cmp_kv (slot_of 8 8 (bytes "averylongkey") (bytes "v"))
         (slot_of 8 8 (bytes "averylongkey") (bytes "v")) = None.
Proof.
  split; [reflexivity|]. split; [reflexivity|]. split; [|split].
  - apply (strncpy_unterminated 8 (bytes "averylongkey")). cbn. lia.
  - discriminate.
  - reflexivity.
Qed.

(** C7, at a run over (a,1), (b,2), (a,3) in which every allocation succeeds
    but the [malloc] of the value of the first output record (the fifth
    [malloc] of the run): [mr_exec] does not return -1, it writes through
    the null pointer.  When instead the output array cannot be allocated
    (the fourth [malloc]) it returns -1. *)
Theorem exec_null_record_value :
  mr_exec 8 8 in_rec always (all_but 4) isort input_ab map_identity 1
          reduce_concat 1 out0 [] [] st0 = Undefined /\
  status_of (mr_exec 8 8 in_rec always (all_but 3) isort input_ab map_identity 1
               reduce_concat 1 out0 [] [] st0) = Some (-1) /\
  status_of (mr_exec 8 8 in_rec always always isort input_ab map_identity 1
               reduce_concat 1 out0 [] [] st0) = Some 0.
Proof. vm_compute. repeat split; reflexivity. Qed.

(** C1, at two records that a map function emits under one key of twelve
    characters, with a key field of eight bytes.  The two slots hold the
    same eight bytes "averylon" and no NUL: one stored key.  The [strcmp] of
    [cmp_kv] and that of the group walk read past the key field, so that
    the stage builds nothing the program can rely on: neither the sort nor
    the single group of two values that the claim describes. *)
Theorem group_stage_long_keys :
  inter_kvs (map_stage 8 8 in_rec always input_long map_raw 1 [] (reset st0))
  = [slot8 "averylongkey" "1"; slot8 "averylongkey" "2"] /\
  map key (inter_kvs (map_stage 8 8 in_rec always input_long map_raw 1 []
                                (reset st0)))
  = [bytes "averylon"; bytes "averylon"] /\
  distinct_keys (inter_kvs (map_stage 8 8 in_rec always input_long map_raw 1 []
                                      (reset st0)))
  = [bytes "averylon"] /\
  cmp_kv (slot8 "averylongkey" "1") (slot8 "averylongkey" "2") = None /\
  same_key_run (key (slot8 "averylongkey" "1")) [slot8 "averylongkey" "2"]
  = None /\
  group_stage 8 8 always isort
    (map_stage 8 8 in_rec always input_long map_raw 1 [] (reset st0))
  = OutOfBounds /\
  mr_exec 8 8 in_rec always always isort input_long map_raw 1
          reduce_concat 1 out0 [] [] st0 = Undefined.
Proof. vm_compute. repeat split; reflexivity. Qed.

(** C2, counterexample.  The run over (a,1), (b,2), (a,3) reaches the packing
    step with two pairs in the final buffer; the fourth [malloc] of the
    run, that of the output array, fails.  [mr_exec] returns -1 and
    [output->kv_lst] is the null pointer: two final-buffer entries, no
    output record. *)
Lemma pack_without_output_array :
  option_map (fun st => map (fun p => (ckey p, c_str (value p))) (final_kvs st))
    (state_of (mr_exec 8 8 in_rec always (all_but 3) isort input_ab
                 map_identity 1 reduce_concat 1 out0 [] [] st0))
  = Some [(bytes "a", bytes "13"); (bytes "b", bytes "2")] /\
  status_of (mr_exec 8 8 in_rec always (all_but 3) isort input_ab
               map_identity 1 reduce_concat 1 out0 [] [] st0) = Some (-1) /\
  option_map kv_lst
    (output_of (mr_exec 8 8 in_rec always (all_but 3) isort input_ab
                  map_identity 1 reduce_concat 1 out0 [] [] st0))
  = Some None.
Proof. vm_compute. repeat split; reflexivity. Qed.

(** C9, counterexample.  Over (a,1), (b,2), (a,3), let the first [realloc]
    of the process fail and the others succeed.  With one mapper the emit
    call that fails is that of (a,1); with two mappers, when the second
    thread is the first to emit, it is that of (a,3).  Both runs return 0,
    and the groups that enter the reduce stage differ: a with the value 3
    in the first run, a with the value 1 in the second. *)
Lemma mapper_count_changes_groups :
  (exists G1 G2 a,
     group_stage 8 8 always isort
       (map_stage 8 8 in_rec (all_but 0) input_ab map_identity 1 []
          (reset st0)) = Groups G1 a /\
     group_stage 8 8 always isort
       (map_stage 8 8 in_rec (all_but 0) input_ab map_identity 2 [1; 1]%nat
          (reset st0)) = Groups G2 a /\
     map (fun g => (c_str (out_key g), map c_str (out_value g))) G1
     = [(bytes "a", [bytes "3"]); (bytes "b", [bytes "2"])] /\
     map (fun g => (c_str (out_key g), map c_str (out_value g))) G2
     = [(bytes "a", [bytes "1"]); (bytes "b", [bytes "2"])] /\
     ~ same_groups G1 G2) /\
  status_of (mr_exec 8 8 in_rec (all_but 0) always isort input_ab
               map_identity 1 reduce_concat 1 out0 [] [] st0) = Some 0 /\
  status_of (mr_exec 8 8 in_rec (all_but 0) always isort input_ab
               map_identity 2 reduce_concat 1 out0 [1; 1]%nat [] st0) = Some 0.
Proof.
  split; [|split; reflexivity].
  do 3 eexists.
  split; [vm_compute; reflexivity|]. split; [vm_compute; reflexivity|].
  split; [reflexivity|]. split; [reflexivity|].
  intros H. inversion H as [|g1 g2 r1 r2 (_ & Hp & _) _]; subst.
  cbn [out_value] in Hp. apply Permutation_length_1 in Hp. discriminate Hp.
Qed.

(** * Further properties at work *)

(** The comparator on the slots (a,1), (b,2), (a,3). *)
Lemma cmp_kv_consistent_witness :
  exists ab ba bc ac,
    cmp_kv (slot8 "a" "1") (slot8 "b" "2") = Some ab /\
    cmp_kv (slot8 "b" "2") (slot8 "a" "1") = Some ba /\
    cmp_kv (slot8 "b" "2") (slot8 "a" "3") = Some bc /\
    cmp_kv (slot8 "a" "1") (slot8 "a" "3") = Some ac /\
    cmp_kv (slot8 "a" "1") (slot8 "a" "1") = Some 0 /\
    (ab = 0 <-> ckey (slot8 "a" "1") = ckey (slot8 "b" "2")) /\
    (ab < 0 <-> 0 < ba) /\
    (ab <= 0 -> bc <= 0 -> ac <= 0).
Proof.
  apply (cmp_kv_consistent (slot8 "a" "1") (slot8 "b" "2") (slot8 "a" "3"));
    cbn; auto.
Defined.

(** The packer on a long key and a short one. *)
Lemma emitted_pairs_packed_as_stored_witness :
  exists recs,
    pack_loop 8 8 always
      (map (fun kv => slot_of 8 8 (fst kv) (snd kv))
           [(bytes "averylongkey", bytes "v"); (bytes "a", bytes "1")]) 0
    = Some recs /\
    map (fun r => c_str (out_key r)) recs = [bytes "averylon"; bytes "a"].
Proof.
  destruct (emitted_pairs_packed_as_stored 8 8 always
              [(bytes "averylongkey", bytes "v"); (bytes "a", bytes "1")] 0
              eq_refl) as (recs & H & HF).
  exists recs. split; [exact H|].
  inversion HF as [|? r1 ? l1 (_ & _ & _ & K1 & _) HF1]; subst.
  inversion HF1 as [|? r2 ? l2 (_ & _ & _ & K2 & _) HF2]; subst.
  inversion HF2; subst. cbn [map]. rewrite K1, K2. reflexivity.
Defined.

(** The walk on the unsorted buffer (a,1), (b,2), (a,3): three groups. *)
Lemma group_walk_keeps_every_value_witness :
  exists G,
    group_loop 8 8 always 3 (inter_kvs st_ab) 1 = Groups G (1 + length G) /\
    (length G <= 3)%nat /\
    concat (map out_value G)
    = map (fun q => strncpy (value q) 8) (inter_kvs st_ab).
Proof.
  destruct (group_walk_keeps_every_value 8 8 always 3 (inter_kvs st_ab) 1)
    as (G & H1 & H2 & _ & H3).
  - cbn. lia.
  - repeat (apply Forall_cons; [cbn; auto|]). apply Forall_nil.
  - reflexivity.
  - exists G. repeat split; assumption.
Defined.

(** The packer on an empty final buffer when [malloc(0)] gives no pointer. *)
Lemma pack_empty_final_buffer_witness :
  pack 8 8 never isort 0 out0 st0
  = Returned (-1) {| kv_lst := None; count := 7 |} (sort_final isort st0).
Proof.
  exact (pack_empty_final_buffer 8 8 never isort 0 out0 st0 isort_spec eq_refl).
Defined.

(** Two reducers on two groups. *)
Lemma reduce_stage_calls_each_group_once_witness :
  Permutation
    (reduce_calls (reduce_stage 8 8 always groups_ab reduce_concat 2
                     [1; 0; 1]%nat st0))
    groups_ab.
Proof.
  assert (HN : Z.of_nat (length groups_ab) < SIZE_MOD)
    by (unfold SIZE_MOD; cbn; lia).
  assert (HW : 2 < SIZE_MOD) by (unfold SIZE_MOD; lia).
  exact (proj1 (reduce_stage_calls_each_group_once 8 8 always reduce_concat
                  groups_ab 2 [1; 0; 1]%nat st0 HN HW)).
Defined.

(** Two mappers in turn on three records: the first thread is picked until
    it has emitted (a,1) and (b,2), then the second emits (a,3). *)
Lemma stage_in_turn_is_sequential_witness :
  stage 8 8 always map_identity no_note input_ab 2 [0; 0; 0; 0; 1; 1]%nat st0
  = run_items 8 8 always map_identity no_note input_ab st0 /\
  map (fun p => (ckey p, c_str (value p)))
      (inter_kvs (stage 8 8 always map_identity no_note input_ab 2
                        [0; 0; 0; 0; 1; 1]%nat st0))
  = [(bytes "a", bytes "1"); (bytes "b", bytes "2"); (bytes "a", bytes "3")].
Proof.
  assert (HN : Z.of_nat (length input_ab) < SIZE_MOD)
    by (unfold SIZE_MOD; cbn; lia).
  assert (HW : 0 < 2 < SIZE_MOD) by (unfold SIZE_MOD; lia).
  pose proof (stage_in_turn_is_sequential 8 8 always map_identity no_note
                input_ab 2 [0; 0; 0; 0; 1; 1]%nat st0 HN HW eq_refl) as H.
  split; [exact H|]. rewrite H. reflexivity.
Defined.

(** Stages started on the empty buffers of capacity 0. *)
Lemma stages_stay_within_capacity_witness :
  within_capacity
    (map_stage 8 8 in_rec (all_but 1) input_ab map_identity 2 [1; 0]%nat st0) /\
  within_capacity
    (reduce_stage 8 8 (all_but 1) groups_ab reduce_concat 2 [1; 0]%nat st0).
Proof.
  assert (H0 : within_capacity st0) by (repeat split; cbn; lia).
  destruct (stages_stay_within_capacity 8 8 in_rec (all_but 1) input_ab
              map_identity groups_ab reduce_concat 2 [1; 0]%nat st0 H0)
    as [[H1 _] [H2 _]].
  split; assumption.
Defined.

(** Two mappers interleaved on three records. *)
Lemma map_stage_stores_every_emission_witness :
  Permutation
    (inter_kvs (map_stage 8 8 in_rec always input_ab map_identity 2
                  [1; 0; 1; 1; 0]%nat (reset st_ab)))
    (flat_map (fun x => inter_emits 8 8 (map_identity x)) input_ab) /\
  emit_failures (map_stage 8 8 in_rec always input_ab map_identity 2
                   [1; 0; 1; 1; 0]%nat (reset st_ab)) = 0%nat.
Proof.
  assert (HN : Z.of_nat (length input_ab) < SIZE_MOD)
    by (unfold SIZE_MOD; cbn; lia).
  assert (HW : 2 < SIZE_MOD) by (unfold SIZE_MOD; lia).
  destruct (map_stage_stores_every_emission 8 8 in_rec always input_ab
              map_identity 2 [1; 0; 1; 1; 0]%nat st_ab always_true HN HW)
    as (H1 & _ & H2).
  split; assumption.
Defined.
